(** * async-checkpoint: the batched fetcher [parallelCalls] of async_operations.js

    The development embeds Task 05 of [src/async_operations.js] (lines
    129-180): the options with their defaults, the retrying helper
    [fetchWithTimeout] and the batch loop around [Promise.all].

    JavaScript runs every continuation of an [async] function to its next
    [await] without interruption, so a run of [parallelCalls] is a sequence
    of atomic reactions, one per settlement of an awaited operation.  The
    embedding is that transition system:

    - the network is an oracle [Network] giving, for the URL at a position
      of the input and an attempt number, how that attempt's [fetch] ends;
    - a [State] holds what the code holds between two reactions: the state
      of the promise returned by [parallelCalls], the accumulator
      [results], one retry chain per input position, and the trace of the
      effects performed so far;
    - a schedule is the list of positions whose awaited operation settles
      next; [run] folds [step] over it.

    Numbers are integers ([Z]); non-integral and non-numeric option values
    are outside the model.  An input array is a list; JavaScript arrays are
    shorter than 2^32, so are the quotients computed from their length. *)

From stdpp Require Import base list numbers strings pretty.

Local Open Scope Z_scope.

(** ** Values *)

(** Decoded JSON. *)
#[warnings="-register-all"]
Inductive json : Type :=
| JNull
| JBool (b : bool)
| JNum (n : Z)
| JStr (s : string)
| JArr (items : list json)
| JObj (fields : list (string * json)).

(** A JavaScript error object: the two fields the code can observe. *)
Record JsError : Type := mkError { err_name : string; err_message : string }.

(** [new Error(message)] *)
Definition newError (message : string) : JsError :=
  {| err_name := "Error"; err_message := message |}.

(** How [response.json()] ends: with the decoded value, or rejected (with
    a SyntaxError when the body is no JSON). *)
Inductive BodyOutcome : Type :=
| BodyJson (v : json)
| BodyRejects (e : JsError).

(** The part of a [Response] the code reads. *)
Record Response : Type :=
  mkResponse { ok : bool; status : Z; body : BodyOutcome }.

(** How one call [fetch(url, { signal })] ends, under the timer armed for
    the same attempt at line 140. *)
Inductive FetchOutcome : Type :=
| Resolves (response : Response)
    (* the promise is fulfilled before the timer fires *)
| Rejects (e : JsError)
    (* the promise is rejected before the timer fires: transport failure *)
| TimesOut (reason : JsError).
    (* the timer fires first: its callback runs [controller.abort()] and
       the platform rejects the fetch with the signal's abort [reason] *)

(** The oracle: position of the URL in [urls], attempt number. *)
Definition Network : Type := nat -> Z -> FetchOutcome.

(** ** Options (lines 129-132) *)

Record Options : Type :=
  mkOptions { opt_timeout : option Z;
              opt_retries : option Z;
              opt_batchSize : option Z }.

Record Config : Type :=
  mkConfig { timeout : Z; retries : Z; batchSize : Z }.

(** [{ timeout = 5000, retries = 3, batchSize = 5 } = {}]: a missing
    argument is the empty object, a missing field takes its default, and
    a supplied field is bound as it is. *)
Definition resolveOptions (options : option Options) : Config :=
  let o := default (mkOptions None None None) options in
  {| timeout := default 5000 (opt_timeout o);
     retries := default 3 (opt_retries o);
     batchSize := default 5 (opt_batchSize o) |}.

(** ** Effects and states *)

(** What the code does to the outside world, in order.  A timer is named
    by the position and the attempt that armed it.  [EIteration] is not an
    effect of the code: it marks each turn of the loop of line 164 with its
    index and the slice computed at line 167. *)
Inductive Effect : Type :=
| ESetTimeout (pos : nat) (attempt : Z) (ms : Z)
| EFetch (pos : nat) (url : string) (attempt : Z)
| EClearTimeout (pos : nat) (attempt : Z)
| EAbort (pos : nat) (attempt : Z)
| EJson (pos : nat) (attempt : Z)
| ELogRetry (text : string)
| ELogResponses (results : list json)
| ELogError (message : string)
| EIteration (i : nat) (currentBatch : list string).

(** The promise returned by [fetchWithTimeout(url)] for one position. *)
Inductive Chain : Type :=
| NotStarted
| Fetching (attempt : Z)      (* suspended at line 143, timer armed *)
| ReadingBody (attempt : Z)   (* resolved with the promise of line 148 *)
| Fulfilled (v : json)
| Rejected (e : JsError).

(** The promise returned by [parallelCalls]. *)
Inductive Main : Type :=
| Awaiting (i : nat)          (* suspended at line 168 in iteration [i] *)
| Returned (results : list json)
| Thrown (e : JsError).

Record State : Type :=
  mkState { main : Main;
            iterations : nat;       (* length of the array of line 165 *)
            results : list json;
            chains : list Chain;
            trace : list Effect }.

(** ** Arithmetic and array primitives *)

(** [Math.ceil(n / b)]; [None] when the quotient is NaN or infinite. *)
Definition mathCeilDiv (n b : Z) : option Z :=
  if b =? 0 then None else Some (- ((- n) / b)).

(** [Array(len)]: a RangeError ([None]) unless [len] is an array length.
    Negative zero is the length 0. *)
Definition newArray (len : option Z) : option nat :=
  match len with
  | Some n => if 0 <=? n then Some (Z.to_nat n) else None
  | None => None
  end.

(** The relative index of [Array.prototype.slice]. *)
Definition relIndex (len : nat) (k : Z) : nat :=
  if k <? 0 then Z.to_nat (Z.max (Z.of_nat len + k) 0)
  else Z.to_nat (Z.min k (Z.of_nat len)).

(** [l.slice(start, stop)] *)
Definition slice {A} (l : list A) (start stop : Z) : list A :=
  let k := relIndex (length l) start in
  let final := relIndex (length l) stop in
  take (final - k) (drop k l).

(** ** fetchWithTimeout (lines 138-159) *)

(** `HTTP error! status: ${response.status}` *)
Definition httpError (status : Z) : JsError :=
  newError ("HTTP error! status: " +:+ pretty status).

(** `Retrying ${url}, attempt ${attempt + 1}` *)
Definition retryText (url : string) (attempt : Z) : string :=
  "Retrying " +:+ url +:+ ", attempt " +:+ pretty (attempt + 1).

(** The call, up to its first suspension: lines 139-143. *)
Definition fetchWithTimeout (cfg : Config) (pos : nat) (url : string)
    (attempt : Z) : Chain * list Effect :=
  (Fetching attempt,
   [ESetTimeout pos attempt (timeout cfg); EFetch pos url attempt]).

(** The [catch] clause followed by the [finally] clause: lines 149-158.
    The call of line 153 runs to its suspension before line 157 does. *)
Definition catchClause (cfg : Config) (pos : nat) (url : string)
    (attempt : Z) (error : JsError) : Chain * list Effect :=
  if attempt <? retries cfg then
    let '(c, effs) := fetchWithTimeout cfg pos url (attempt + 1) in
    (c, ELogRetry (retryText url attempt) :: effs ++ [EClearTimeout pos attempt])
  else (Rejected error, [EClearTimeout pos attempt]).

(** The reaction to the settlement of the fetch awaited at line 143. *)
Definition fetchSettled (cfg : Config) (pos : nat) (url : string)
    (attempt : Z) (o : FetchOutcome) : Chain * list Effect :=
  match o with
  | Resolves response =>
      if ok response then
        (* 144, 148, 157: the promise of [response.json()] is returned,
           not awaited, so the function has left its [try] block *)
        (ReadingBody attempt,
         [EClearTimeout pos attempt; EJson pos attempt; EClearTimeout pos attempt])
      else
        let '(c, effs) := catchClause cfg pos url attempt (httpError (status response)) in
        (c, EClearTimeout pos attempt :: effs)
  | Rejects e => catchClause cfg pos url attempt e
  | TimesOut reason =>
      let '(c, effs) := catchClause cfg pos url attempt reason in
      (c, EAbort pos attempt :: effs)
  end.

(** The settlement of the promise returned at line 148. *)
Definition jsonSettled (b : BodyOutcome) : Chain :=
  match b with
  | BodyJson v => Fulfilled v
  | BodyRejects e => Rejected e
  end.

(** The chain awaits a fetch or a body. *)
Definition pending (c : Chain) : bool :=
  match c with
  | Fetching _ | ReadingBody _ => true
  | _ => false
  end.

(** One reaction of the chain at [pos]. *)
Definition settle (cfg : Config) (env : Network) (pos : nat) (url : string)
    (c : Chain) : Chain * list Effect :=
  match c with
  | Fetching attempt => fetchSettled cfg pos url attempt (env pos attempt)
  | ReadingBody attempt =>
      match env pos attempt with
      | Resolves response => (jsonSettled (body response), [])
      | _ => (c, [])
      end
  | _ => (c, [])
  end.

(** ** The batch loop (lines 161-179) *)

(** [currentBatch.map((url) => fetchWithTimeout(url))], the chains stored
    at the positions the slice came from. *)
Fixpoint startBatch (cfg : Config) (pos : nat) (currentBatch : list string)
    (cs : list Chain) : list Chain * list Effect :=
  match currentBatch with
  | [] => (cs, [])
  | url :: rest =>
      let '(c, e1) := fetchWithTimeout cfg pos url 1 in
      let '(cs', e2) := startBatch cfg (S pos) rest (<[pos:=c]> cs) in
      (cs', e1 ++ e2)
  end.

(** The loop from iteration [i] with [remaining] iterations to go, up to
    its next suspension or to line 175.  [Promise.all] of no promise is
    fulfilled with the empty array. *)
Fixpoint forLoop (cfg : Config) (urls : list string) (remaining i : nat)
    (s : State) : State :=
  match remaining with
  | O =>
      {| main := Returned (results s); iterations := iterations s;
         results := results s; chains := chains s;
         trace := trace s ++ [ELogResponses (results s)] |}
  | S rest =>
      let start := Z.of_nat i * batchSize cfg in
      let stop := (Z.of_nat i + 1) * batchSize cfg in
      let currentBatch := slice urls start stop in
      match currentBatch with
      | [] =>
          forLoop cfg urls rest (S i)
            {| main := main s; iterations := iterations s;
               results := results s; chains := chains s;
               trace := trace s ++ [EIteration i currentBatch] |}
      | _ =>
          let '(cs, effs) :=
            startBatch cfg (relIndex (length urls) start) currentBatch (chains s) in
          {| main := Awaiting i; iterations := iterations s;
             results := results s; chains := cs;
             trace := trace s ++ EIteration i currentBatch :: effs |}
      end
  end.

(** The [catch] clause of lines 176-179. *)
Definition rethrow (s : State) (message : string) : State :=
  {| main := Thrown (newError message); iterations := iterations s;
     results := results s; chains := chains s;
     trace := trace s ++ [ELogError message] |}.

(** The call [parallelCalls(urls, options)], up to its first suspension. *)
Definition parallelCalls (urls : list string) (options : option Options) : State :=
  let cfg := resolveOptions options in
  let s0 := {| main := Awaiting 0; iterations := 0; results := [];
               chains := replicate (length urls) NotStarted; trace := [] |} in
  match newArray (mathCeilDiv (Z.of_nat (length urls)) (batchSize cfg)) with
  | None => rethrow s0 "Invalid array length"
  | Some n =>
      forLoop cfg urls n 0
        {| main := main s0; iterations := n; results := results s0;
           chains := chains s0; trace := trace s0 |}
  end.

(** The values of an array of fulfilled promises, as [Promise.all] gives
    them; [None] while one is not fulfilled. *)
Fixpoint promiseAll (cs : list Chain) : option (list json) :=
  match cs with
  | [] => Some []
  | Fulfilled v :: rest => option_map (cons v) (promiseAll rest)
  | _ => None
  end.

(** The reaction of [parallelCalls], suspended in iteration [i], to a
    change of the chain at [pos] into [c]: a rejection rejects
    [Promise.all] at once and reaches line 176; the last fulfilment
    resumes the loop at line 171. *)
Definition batchSettled (cfg : Config) (urls : list string) (i : nat)
    (c : Chain) (s : State) : State :=
  match c with
  | Rejected e => rethrow s (err_message e)
  | _ =>
      let start := Z.of_nat i * batchSize cfg in
      let stop := (Z.of_nat i + 1) * batchSize cfg in
      match promiseAll (slice (chains s) start stop) with
      | Some batchResults =>
          forLoop cfg urls (iterations s - S i) (S i)
            {| main := main s; iterations := iterations s;
               results := results s ++ batchResults;
               chains := chains s; trace := trace s |}
      | None => s
      end
  end.

(** One reaction of the whole program: the operation awaited by the chain
    at [pos] settles.  Chains keep reacting after [parallelCalls] has
    thrown: nothing cancels them. *)
Definition step (cfg : Config) (env : Network) (urls : list string)
    (s : State) (pos : nat) : State :=
  match chains s !! pos, urls !! pos with
  | Some c, Some url =>
      if pending c then
        let '(c', effs) := settle cfg env pos url c in
        let s1 := {| main := main s; iterations := iterations s;
                     results := results s;
                     chains := <[pos:=c']> (chains s);
                     trace := trace s ++ effs |} in
        match main s with
        | Awaiting i => batchSettled cfg urls i c' s1
        | _ => s1
        end
      else s
  | _, _ => s
  end.

(** The reactions to a schedule, from a state on. *)
Definition runFrom (cfg : Config) (env : Network) (urls : list string)
    (s : State) (schedule : list nat) : State :=
  foldl (step cfg env urls) s schedule.

(** A run of [parallelCalls(urls, options)] on a network and a schedule. *)
Definition run (env : Network) (urls : list string) (options : option Options)
    (schedule : list nat) : State :=
  runFrom (resolveOptions options) env urls (parallelCalls urls options) schedule.

(** ** Observations on traces and states *)

(** The number of effects of a trace that an observation [f] singles out. *)
Fixpoint count (f : Effect -> bool) (tr : list Effect) : nat :=
  match tr with
  | [] => O
  | e :: rest => ((if f e then 1 else 0) + count f rest)%nat
  end.

(** A call of [fetch] for the URL at position [p]. *)
Definition isFetch (p : nat) (e : Effect) : bool :=
  match e with
  | EFetch q _ _ => bool_decide (q = p)
  | _ => false
  end.

(** The call of [fetch] of attempt [a] at position [p]. *)
Definition isFetchAt (p : nat) (a : Z) (e : Effect) : bool :=
  match e with
  | EFetch q _ a' => bool_decide (q = p) && bool_decide (a' = a)
  | _ => false
  end.

(** The call of [setTimeout] of attempt [a] at position [p]. *)
Definition isSetTimeout (p : nat) (a : Z) (e : Effect) : bool :=
  match e with
  | ESetTimeout q a' _ => bool_decide (q = p) && bool_decide (a' = a)
  | _ => false
  end.

(** A call of [clearTimeout] on the timer of attempt [a] at position [p]. *)
Definition isClearTimeout (p : nat) (a : Z) (e : Effect) : bool :=
  match e with
  | EClearTimeout q a' => bool_decide (q = p) && bool_decide (a' = a)
  | _ => false
  end.

(** The firing of the timer of attempt [a] at position [p]. *)
Definition isAbort (p : nat) (a : Z) (e : Effect) : bool :=
  match e with
  | EAbort q a' => bool_decide (q = p) && bool_decide (a' = a)
  | _ => false
  end.

(** The number of calls of [fetch] made for the URL at position [p]. *)
Definition attemptsMade (tr : list Effect) (p : nat) : Z :=
  Z.of_nat (count (isFetch p) tr).

(** The iterations of the loop that were entered, with their slices. *)
Fixpoint batchesRun (tr : list Effect) : list (nat * list string) :=
  match tr with
  | [] => []
  | EIteration i currentBatch :: rest => (i, currentBatch) :: batchesRun rest
  | _ :: rest => batchesRun rest
  end.

(** The number of attempts in flight: chains awaiting a fetch or a body. *)
Fixpoint outstanding (cs : list Chain) : nat :=
  match cs with
  | [] => O
  | c :: rest => ((if pending c then 1 else 0) + outstanding rest)%nat
  end.

(** The error the [catch] clause of line 149 receives from an attempt. *)
Definition caughtError (o : FetchOutcome) : option JsError :=
  match o with
  | Resolves response =>
      if ok response then None else Some (httpError (status response))
  | Rejects e => Some e
  | TimesOut reason => Some reason
  end.

(** The error an attempt ends with, caught or not. *)
Definition attemptError (o : FetchOutcome) : option JsError :=
  match o with
  | Resolves response =>
      if ok response then
        match body response with
        | BodyJson _ => None
        | BodyRejects e => Some e
        end
      else Some (httpError (status response))
  | Rejects e => Some e
  | TimesOut reason => Some reason
  end.

(** The value an attempt ends with. *)
Definition attemptValue (o : FetchOutcome) : option json :=
  match o with
  | Resolves response =>
      if ok response then
        match body response with
        | BodyJson v => Some v
        | BodyRejects _ => None
        end
      else None
  | _ => None
  end.

(** ** Notions used by the invariants *)

(** The number of iterations for a positive batch size. *)
Definition batchCount (len : nat) (b : Z) : nat :=
  Z.to_nat (- ((- Z.of_nat len) / b)).

(** The position an effect belongs to; the logs and marks belong to none. *)
Definition posOf (e : Effect) : option nat :=
  match e with
  | ESetTimeout p _ _ | EFetch p _ _ | EClearTimeout p _
  | EAbort p _ | EJson p _ => Some p
  | _ => None
  end.

(** An observation that only sees the effects at position [q]. *)
Definition localAt (q : nat) (f : Effect -> bool) : Prop :=
  forall e, f e = true -> posOf e = Some q.

(** A trace without effect at position [q]. *)
Definition quiet (q : nat) (tr : list Effect) : Prop :=
  Forall (fun e => posOf e <> Some q) tr.

(** The fetch of attempt [a] is the one the chain awaits. *)
Definition inFlight (c : Chain) (a : Z) : bool :=
  match c with
  | Fetching a' => bool_decide (a' = a)
  | _ => false
  end.

(** Calls of [clearTimeout] on the timer of a settled attempt: line 144
    runs only when the fetch was fulfilled, line 157 always. *)
Definition clearsOf (o : FetchOutcome) : nat :=
  match o with
  | Resolves _ => 2
  | _ => 1
  end.

(** Calls of [controller.abort()] by the timer of a settled attempt. *)
Definition abortsOf (o : FetchOutcome) : nat :=
  match o with
  | TimesOut _ => 1
  | _ => 0
  end.

(** The timer armed for attempt [a] at position [p], followed along a
    trace: whether it is armed, and how many times it was released, by
    firing (its callback aborts the fetch) or by a [clearTimeout]. A
    [clearTimeout] on a timer that is not armed does nothing. *)
Definition timerStep (p : nat) (a : Z) (st : bool * nat) (e : Effect) : bool * nat :=
  if isSetTimeout p a e then (true, st.2)
  else if isAbort p a e || isClearTimeout p a e then
    (false, if st.1 then S st.2 else st.2)
  else st.

(** The timer after a whole trace, not armed at its start. *)
Definition timerAfter (p : nat) (a : Z) (tr : list Effect) : bool * nat :=
  foldl (timerStep p a) (false, O) tr.

(** Position [q] is one of the [n] positions from [pos] on. *)
Definition inBatch (pos n q : nat) : bool :=
  bool_decide (pos <= q < pos + n)%nat.

(** ** The invariants of a run *)

Section Invariants.
Variable cfg : Config.
Variable env : Network.
Variable urls : list string.

(** [a] attempts were made at [p]; the [catch] clause took all but,
    possibly, the last. *)
Definition attempted (tr : list Effect) (p : nat) (a : Z) : Prop :=
  1 <= a /\ attemptsMade tr p = a /\ (a = 1 \/ a <= retries cfg) /\
  forall k, 1 <= k < a -> is_Some (caughtError (env p k)).

(** What the state of a chain says about the attempts made for it. *)
Definition chainOk (tr : list Effect) (p : nat) (c : Chain) : Prop :=
  match c with
  | NotStarted => attemptsMade tr p = 0
  | Fetching a => attempted tr p a
  | ReadingBody a => attempted tr p a /\ caughtError (env p a) = None
  | Fulfilled v =>
      exists a, attempted tr p a /\ attemptValue (env p a) = Some v
  | Rejected e =>
      exists a, attempted tr p a /\ attemptError (env p a) = Some e /\
                (is_Some (caughtError (env p a)) -> retries cfg <= a)
  end.

(** What the state of a chain says about its timers: one is armed with
    each fetch; it stays armed while that fetch is in flight, and is
    released once, and cleared, when the attempt is over. *)
Definition timersOk (tr : list Effect) (p : nat) (c : Chain) : Prop :=
  forall a,
    let made := bool_decide (1 <= a <= attemptsMade tr p) in
    let over := made && negb (inFlight c a) in
    count (isFetchAt p a) tr = (if made then 1 else 0)%nat /\
    count (isSetTimeout p a) tr = (if made then 1 else 0)%nat /\
    count (isClearTimeout p a) tr = (if over then clearsOf (env p a) else 0)%nat /\
    count (isAbort p a) tr = (if over then abortsOf (env p a) else 0)%nat /\
    timerAfter p a tr = (made && inFlight c a, if over then 1%nat else O).

(** The invariant of the chain at position [p]. *)
Definition posOk (tr : list Effect) (p : nat) (c : Chain) : Prop :=
  chainOk tr p c /\ timersOk tr p c.

(** The batch size and the number of batches, as natural numbers. *)
Definition batchWidth : nat := Z.to_nat (batchSize cfg).
Definition batchTotal : nat := batchCount (length urls) (batchSize cfg).

(** The slice of iteration [i]. *)
Definition theBatch (i : nat) : list string :=
  take batchWidth (drop (i * batchWidth) urls).

(** The first [k] iterations with their slices. *)
Definition allBatches (k : nat) : list (nat * list string) :=
  (fun j => (j, theBatch j)) <$> seq 0 k.

(** Between two iterations: the first [i] batches are fulfilled and
    accumulated, nothing else is started. *)
Record Between (s : State) (i : nat) : Prop := {
  bw_index : (i <= batchTotal)%nat;
  bw_length : length (chains s) = length urls;
  bw_iterations : iterations s = batchTotal;
  bw_done : take (i * batchWidth) (chains s) = Fulfilled <$> results s;
  bw_rest : forall p c,
    (i * batchWidth <= p)%nat -> chains s !! p = Some c -> c = NotStarted;
  bw_batches : batchesRun (trace s) = allBatches i;
  bw_pos : forall p c, chains s !! p = Some c -> posOk (trace s) p c;
  bw_beyond : forall q, (length urls <= q)%nat -> quiet q (trace s)
}.

(** In iteration [i]: the batches before are fulfilled and accumulated,
    batch [i] is started, nothing after it is. *)
Record Frontier (s : State) (i : nat) : Prop := {
  fr_index : (i < batchTotal)%nat;
  fr_done : take (i * batchWidth) (chains s) = Fulfilled <$> results s;
  fr_started : forall p c,
    (i * batchWidth <= p < (i + 1) * batchWidth)%nat ->
    chains s !! p = Some c -> c <> NotStarted;
  fr_rest : forall p c,
    ((i + 1) * batchWidth <= p)%nat -> chains s !! p = Some c -> c = NotStarted;
  fr_batches : batchesRun (trace s) = allBatches (S i)
}.

(** What the state of the promise of [parallelCalls] says about the
    chains: while it awaits batch [i] no chain is rejected and one of the
    batch is not fulfilled; when it has returned every chain is fulfilled
    and accumulated; when it has thrown a chain is rejected, and the error
    is a new [Error] with that rejection's message. *)
Definition mainOk (s : State) : Prop :=
  match main s with
  | Awaiting i =>
      Frontier s i /\
      (forall p e, chains s !! p <> Some (Rejected e)) /\
      promiseAll (take batchWidth (drop (i * batchWidth) (chains s))) = None
  | Returned rs =>
      rs = results s /\ chains s = Fulfilled <$> rs /\
      batchesRun (trace s) = allBatches batchTotal
  | Thrown e =>
      exists i, Frontier s i /\
        exists p e0, chains s !! p = Some (Rejected e0) /\
                     e = newError (err_message e0)
  end.

(** The invariant of a run. *)
Record Inv (s : State) : Prop := {
  inv_length : length (chains s) = length urls;
  inv_iterations : iterations s = batchTotal;
  inv_pos : forall p c, chains s !! p = Some c -> posOk (trace s) p c;
  inv_beyond : forall q, (length urls <= q)%nat -> quiet q (trace s);
  inv_main : mainOk s
}.

(** The attempts a chain can make: the first one, and then as long as
    [attempt < retries]. *)
Definition budget : Z := Z.max 1 (retries cfg).

(** An upper bound on the reactions a chain still has to make. *)
Definition potential (c : Chain) : nat :=
  match c with
  | Fetching a => 2 * Z.to_nat (budget - a) + 2
  | ReadingBody _ => 1
  | _ => 0
  end.

(** The potential of all chains. *)
Fixpoint load (cs : list Chain) : nat :=
  match cs with
  | [] => O
  | c :: rest => (potential c + load rest)%nat
  end.

(** More than the potential of any batch. *)
Definition fullBatch : nat := (batchWidth * (2 * Z.to_nat budget) + 1)%nat.

(** An upper bound on the reactions left before [parallelCalls] settles. *)
Definition measure (s : State) : nat :=
  match main s with
  | Awaiting i => ((batchTotal - i) * fullBatch + load (chains s))%nat
  | _ => O
  end.

(** The promise of [parallelCalls] is fulfilled or rejected. *)
Definition settled (s : State) : Prop :=
  match main s with
  | Awaiting _ => False
  | _ => True
  end.

End Invariants.

(** ** Hypotheses on the network, and sample networks *)

(** The URL at [p] succeeds at attempt [a], within its budget, with the
    value [v]: the attempts before it ended in the [catch] clause. *)
Definition succeedsAt (cfg : Config) (env : Network) (p : nat) (a : Z)
    (v : json) : Prop :=
  1 <= a <= budget cfg /\
  attemptValue (env p a) = Some v /\
  forall k, 1 <= k < a -> is_Some (caughtError (env p k)).

(** Every permitted attempt of the URL at [p] fails. *)
Definition failsAlways (cfg : Config) (env : Network) (p : nat) : Prop :=
  forall k, 1 <= k <= budget cfg -> is_Some (attemptError (env p k)).

(** A fulfilled fetch with status 200 and a body that decodes to [v]. *)
Definition okJson (v : json) : FetchOutcome :=
  Resolves (mkResponse true 200 (BodyJson v)).

(** The rejection of an aborted fetch on Node.js. *)
Definition abortError : JsError :=
  {| err_name := "AbortError"; err_message := "This operation was aborted" |}.

(** The rejection of [response.json()] on a body that is no JSON. *)
Definition syntaxError : JsError :=
  {| err_name := "SyntaxError"; err_message := "Unexpected token < in JSON at position 0" |}.

(** The rejection of a fetch that could not connect. *)
Definition fetchFailed : JsError :=
  {| err_name := "TypeError"; err_message := "fetch failed" |}.

(** Every first attempt succeeds with the position as its value. *)
Definition allOk : Network := fun p _ => okJson (JNum (Z.of_nat p)).

(** Position 0 succeeds at once; the others first fail (a 500 at
    position 1, a timeout elsewhere) and succeed at their second attempt. *)
Definition flaky : Network := fun p a =>
  match p, a with
  | O, _ => okJson (JNum 0)
  | 1%nat, 1 => Resolves (mkResponse false 500 (BodyJson JNull))
  | _, 1 => TimesOut abortError
  | _, _ => okJson (JNum (Z.of_nat p))
  end.

(** The options [{ batchSize: b }]. *)
Definition batchesOf (b : Z) : option Options :=
  Some (mkOptions None None (Some b)).

(** Every attempt is answered with status 200 and a body that is no JSON. *)
Definition alwaysBadJson : Network :=
  fun _ _ => Resolves (mkResponse true 200 (BodyRejects syntaxError)).

(** The first attempt is answered with a body that is no JSON, every later
    one with a good body. *)
Definition badJsonOnce : Network :=
  fun _ a =>
    if a =? 1 then Resolves (mkResponse true 200 (BodyRejects syntaxError))
    else okJson (JStr "resA").

(** The URL at position 1 never connects; the others succeed at once. *)
Definition secondFails : Network :=
  fun p _ =>
    match p with
    | 1%nat => Rejects fetchFailed
    | _ => okJson (JNum (Z.of_nat p))
    end.

(** Scenario A: every first attempt succeeds. *)
Definition scenarioA : Network :=
  fun p _ =>
    okJson (JStr (nth p ["resA"; "resB"; "resC"; "resD"; "resE"] ""%string)).

(** Always timing out, with the rejection of an aborted fetch on Node.js. *)
Definition alwaysTimesOut : Network := fun _ _ => TimesOut abortError.

(** ** Tactics *)

(** The cases of one reaction of a chain, by the code path taken. *)
Ltac settle_cases H :=
  unfold settle, fetchSettled, catchClause, fetchWithTimeout in H;
  try match type of H with
      | context [match ?c with NotStarted => _ | _ => _ end] =>
          is_var c; destruct c
      end;
  cbv beta iota in H;
  repeat match type of H with
         | context [match ?x with Resolves _ => _ | Rejects _ => _ | TimesOut _ => _ end] =>
             let o := fresh "o" in
             let Ho := fresh "Ho" in
             destruct x as [o | o | o] eqn:Ho
         | context [ok ?r] => let Hok := fresh "Hok" in destruct (ok r) eqn:Hok
         | context [?a <? ?r] =>
             let Hlt := fresh "Hlt" in destruct (Z.ltb_spec a r) as [Hlt | Hlt]
         end;
  cbn in H; simplify_eq.

(** ** Arithmetic and list facts *)

Lemma count_app f tr1 tr2 :
  count f (tr1 ++ tr2) = (count f tr1 + count f tr2)%nat.
Proof. induction tr1 as [|e tr1 IH]; simpl; [done | rewrite IH; lia]. Qed.

Lemma count_zero_not_elem f tr e :
  count f tr = O -> e ∈ tr -> f e = false.
Proof.
  induction tr as [|e' tr IH]; simpl; intros Hc Hin.
  - by apply elem_of_nil in Hin.
  - apply elem_of_cons in Hin as [-> | Hin].
    + destruct (f e'); [lia | done].
    + apply IH; [lia | done].
Qed.

Lemma batchesRun_app tr1 tr2 :
  batchesRun (tr1 ++ tr2) = batchesRun tr1 ++ batchesRun tr2.
Proof.
  induction tr1 as [|e tr1 IH]; simpl; [done |].
  destruct e; simpl; by rewrite ?IH.
Qed.

Lemma relIndex_nonneg len k :
  0 <= k -> relIndex len k = Nat.min (Z.to_nat k) len.
Proof.
  intros Hk. unfold relIndex.
  destruct (Z.ltb_spec k 0); [lia |]. lia.
Qed.

Lemma take_min_length {A} (l : list A) n :
  take (Nat.min n (length l)) l = take n l.
Proof.
  destruct (Nat.le_ge_cases n (length l)).
  - by rewrite Nat.min_l.
  - rewrite Nat.min_r by done. by rewrite !take_ge by lia.
Qed.

Lemma slice_nonneg {A} (l : list A) start stop :
  0 <= start <= stop ->
  slice l start stop =
    take (Z.to_nat stop - Z.to_nat start) (drop (Z.to_nat start) l).
Proof.
  intros H. unfold slice. rewrite !relIndex_nonneg by lia.
  destruct (Nat.le_gt_cases (Z.to_nat start) (length l)) as [Hle | Hgt].
  - rewrite (Nat.min_l (Z.to_nat start)) by done.
    rewrite <- (take_min_length (drop _ l) (Z.to_nat stop - Z.to_nat start)).
    f_equal. rewrite length_drop. lia.
  - rewrite (Nat.min_r (Z.to_nat start)) by lia.
    rewrite !drop_ge by lia. by rewrite !take_nil.
Qed.

(** The slice of iteration [i] for a positive batch size [b]. *)
Lemma slice_batch {A} (l : list A) (b : Z) (i : nat) :
  1 <= b ->
  slice l (Z.of_nat i * b) ((Z.of_nat i + 1) * b) =
    take (Z.to_nat b) (drop (i * Z.to_nat b) l).
Proof.
  intros Hb. rewrite slice_nonneg by nia.
  f_equal; [nia | f_equal; nia].
Qed.

Lemma relIndex_batch len (b : Z) (i : nat) :
  1 <= b -> relIndex len (Z.of_nat i * b) = Nat.min (i * Z.to_nat b) len.
Proof. intros Hb. rewrite relIndex_nonneg by nia. f_equal. nia. Qed.

Lemma newArray_positive len b :
  1 <= b ->
  newArray (mathCeilDiv (Z.of_nat len) b) = Some (batchCount len b).
Proof.
  intros Hb. unfold mathCeilDiv, newArray, batchCount.
  destruct (Z.eqb_spec b 0); [lia |].
  assert (0 <= - (- Z.of_nat len / b)).
  { assert (- Z.of_nat len / b <= 0); [| lia].
    apply Z.div_le_upper_bound; lia. }
  destruct (Z.leb_spec 0 (- (- Z.of_nat len / b))); [done | lia].
Qed.

Lemma batchCount_spec len b :
  1 <= b ->
  (len <= batchCount len b * Z.to_nat b)%nat /\
  (forall i, (i < batchCount len b)%nat -> (i * Z.to_nat b < len)%nat).
Proof.
  intros Hb. unfold batchCount.
  pose proof (Z.div_mod (- Z.of_nat len) b ltac:(lia)) as Hdm.
  pose proof (Z.mod_pos_bound (- Z.of_nat len) b ltac:(lia)) as Hm.
  set (q := - Z.of_nat len / b) in *.
  split; [nia |]. intros i Hi. nia.
Qed.

Lemma batchCount_ceil len b :
  1 <= b -> Z.of_nat (batchCount len b) = (Z.of_nat len + b - 1) / b.
Proof.
  intros Hb. unfold batchCount.
  pose proof (Z.div_mod (- Z.of_nat len) b ltac:(lia)) as Hdm.
  pose proof (Z.mod_pos_bound (- Z.of_nat len) b ltac:(lia)) as Hm.
  set (q := - Z.of_nat len / b) in *.
  assert (Hq : q <= 0) by nia.
  rewrite Z2Nat.id by lia.
  apply (Z.div_unique_pos _ _ _ (Z.of_nat len + b - 1 - b * (- q))); nia.
Qed.

(** ** Effects are local to a position *)

Lemma count_quiet q f tr : localAt q f -> quiet q tr -> count f tr = O.
Proof.
  intros Hf. induction 1 as [|e tr He _ IH]; simpl; [done |].
  rewrite IH. destruct (f e) eqn:Hfe; [| done].
  by apply Hf in Hfe.
Qed.

Lemma isFetch_local p : localAt p (isFetch p).
Proof. intros [] H; simpl in *; try done. by case_bool_decide; subst. Qed.

Lemma isFetchAt_local p a : localAt p (isFetchAt p a).
Proof. intros [] H; simpl in *; try done. by case_bool_decide; subst. Qed.

Lemma isSetTimeout_local p a : localAt p (isSetTimeout p a).
Proof. intros [] H; simpl in *; try done. by case_bool_decide; subst. Qed.

Lemma isClearTimeout_local p a : localAt p (isClearTimeout p a).
Proof. intros [] H; simpl in *; try done. by case_bool_decide; subst. Qed.

Lemma isAbort_local p a : localAt p (isAbort p a).
Proof. intros [] H; simpl in *; try done. by case_bool_decide; subst. Qed.

Create HintDb locality.
#[export] Hint Resolve isFetch_local isFetchAt_local isSetTimeout_local
  isClearTimeout_local isAbort_local : locality.

Lemma timerStep_quiet q a tr : forall st,
  quiet q tr -> foldl (timerStep q a) st tr = st.
Proof.
  induction tr as [|e tr IH]; intros st Hq; simpl; [done |].
  apply Forall_cons in Hq as [He Hq]. rewrite <- (IH st Hq) at 2. f_equal.
  unfold timerStep.
  destruct (isSetTimeout q a e) eqn:H1;
    [by apply isSetTimeout_local in H1 |].
  destruct (isAbort q a e) eqn:H2; [by apply isAbort_local in H2 |].
  destruct (isClearTimeout q a e) eqn:H3;
    [by apply isClearTimeout_local in H3 | done].
Qed.

Lemma timerAfter_app p a tr effs :
  timerAfter p a (tr ++ effs) = foldl (timerStep p a) (timerAfter p a tr) effs.
Proof. apply foldl_app. Qed.

Lemma quiet_app q tr1 tr2 : quiet q tr1 -> quiet q tr2 -> quiet q (tr1 ++ tr2).
Proof. apply Forall_app_2. Qed.

(** A reaction of the chain at [p] is silent everywhere else. *)
Lemma settle_quiet cfg env p url c c' effs q :
  settle cfg env p url c = (c', effs) -> q <> p -> quiet q effs.
Proof.
  intros H Hq. unfold quiet.
  settle_cases H;
    repeat (apply Forall_cons_2; [simpl; congruence |]); apply Forall_nil_2.
Qed.

Lemma settle_batchesRun cfg env p url c c' effs :
  settle cfg env p url c = (c', effs) -> batchesRun effs = [].
Proof. intros H. by settle_cases H. Qed.

(** ** The invariant of one retry chain *)

Section Chains.
Variable cfg : Config.
Variable env : Network.

Local Abbreviation attempted := (attempted cfg env).
Local Abbreviation chainOk := (chainOk cfg env).
Local Abbreviation timersOk := (timersOk env).
Local Abbreviation posOk := (posOk cfg env).

Lemma attemptsMade_quiet tr effs p :
  quiet p effs -> attemptsMade (tr ++ effs) p = attemptsMade tr p.
Proof.
  intros Hq. unfold attemptsMade.
  rewrite count_app, (count_quiet p _ effs); [lia | auto with locality | done].
Qed.

Lemma posOk_quiet tr effs p c :
  quiet p effs -> posOk tr p c -> posOk (tr ++ effs) p c.
Proof.
  intros Hq [Hc Ht]. split.
  - assert (Hatt : forall a, attempted tr p a -> attempted (tr ++ effs) p a).
    { intros a. unfold attempted. by rewrite attemptsMade_quiet. }
    destruct c as [|a|a|v|e]; simpl in *.
    + by rewrite attemptsMade_quiet.
    + auto.
    + destruct Hc; auto.
    + destruct Hc as (a & ? & ?); eauto.
    + destruct Hc as (a & ? & ? & ?); eauto 6.
  - intros a. specialize (Ht a). cbn zeta in *.
    rewrite attemptsMade_quiet by done.
    rewrite timerAfter_app, timerStep_quiet by done.
    rewrite !count_app, !(count_quiet p _ effs) by auto with locality.
    by rewrite !Nat.add_0_r.
Qed.

Lemma posOk_NotStarted_counts tr p a :
  posOk tr p NotStarted ->
  count (isFetch p) tr = O /\ count (isFetchAt p a) tr = O /\
  count (isSetTimeout p a) tr = O /\ count (isClearTimeout p a) tr = O /\
  count (isAbort p a) tr = O /\ timerAfter p a tr = (false, O).
Proof.
  intros [Hc Ht]. simpl in Hc. specialize (Ht a). cbn zeta in Ht.
  rewrite Hc in Ht. rewrite bool_decide_eq_false_2 in Ht by lia.
  unfold attemptsMade in Hc. simpl in Ht. intuition lia.
Qed.

(** The chain started by line 169. *)
Lemma posOk_started tr effs p :
  posOk tr p NotStarted ->
  count (isFetch p) effs = 1%nat ->
  (forall a, count (isFetchAt p a) effs = if bool_decide (a = 1) then 1%nat else O) ->
  (forall a, count (isSetTimeout p a) effs = if bool_decide (a = 1) then 1%nat else O) ->
  (forall a, count (isClearTimeout p a) effs = O) ->
  (forall a, count (isAbort p a) effs = O) ->
  (forall a, foldl (timerStep p a) (false, O) effs = (bool_decide (a = 1), O)) ->
  posOk (tr ++ effs) p (Fetching 1).
Proof.
  intros H0 Hf Hfa Hs Hc Ha Htm.
  assert (Hmade : attemptsMade (tr ++ effs) p = 1).
  { unfold attemptsMade. rewrite count_app, Hf.
    destruct (posOk_NotStarted_counts tr p 0 H0) as [-> _]. lia. }
  split.
  - simpl. unfold attempted. rewrite Hmade. repeat split; lia.
  - intros a. cbn zeta. rewrite Hmade, !count_app, Hfa, Hs, Hc, Ha.
    rewrite timerAfter_app.
    destruct (posOk_NotStarted_counts tr p a H0) as (_ & -> & -> & -> & -> & ->).
    rewrite Htm.
    simpl. repeat case_bool_decide; simpl; try lia; done.
Qed.

Lemma attemptsMade_app tr effs p :
  attemptsMade (tr ++ effs) p =
    attemptsMade tr p + Z.of_nat (count (isFetch p) effs).
Proof. unfold attemptsMade. rewrite count_app. lia. Qed.

(** One reaction keeps the invariant of its chain. *)
Lemma settle_posOk tr p url c c' effs :
  posOk tr p c -> pending c = true ->
  settle cfg env p url c = (c', effs) ->
  posOk (tr ++ effs) p c'.
Proof.
  intros [Hc Ht] Hp H.
  assert (exists a, attempted tr p a /\
            (c = Fetching a \/ (c = ReadingBody a /\ caughtError (env p a) = None)))
    as (a & (H1 & Hm & Hr & Hk) & Hshape).
  { destruct c; try discriminate; simpl in Hc; [eauto | destruct Hc; eauto]. }
  clear Hc.
  assert (Htimers : timersOk (tr ++ effs) p c').
  { intros a'. specialize (Ht a'). cbn zeta in *.
    rewrite attemptsMade_app, !count_app. rewrite Hm in *.
    destruct Ht as (Ht1 & Ht2 & Ht3 & Ht4 & Ht5).
    rewrite timerAfter_app.
    rewrite Ht1, Ht2, Ht3, Ht4, Ht5; clear Ht1 Ht2 Ht3 Ht4 Ht5.
    destruct Hshape as [-> | [-> Hcaught]]; settle_cases H;
      unfold timerStep; simpl;
      rewrite ?bool_decide_eq_true_2 by done; simpl;
      repeat case_bool_decide; subst; simpl;
      rewrite ?Ho; simpl; try lia; try done.
    all: destruct (body o); simpl; repeat split; lia. }
  split; [| done].
  assert (Hsame : count (isFetch p) effs = O -> attempted (tr ++ effs) p a).
  { intros Hz. unfold attempted. rewrite attemptsMade_app, Hz.
    repeat split; [lia | lia | done | done]. }
  assert (Hnext : count (isFetch p) effs = 1%nat -> a < retries cfg ->
                  is_Some (caughtError (env p a)) ->
                  attempted (tr ++ effs) p (a + 1)).
  { intros Hz Hlt Hsome. unfold attempted. rewrite attemptsMade_app, Hz.
    repeat split; [lia | lia | lia |].
    intros k Hk'. destruct (decide (k = a)) as [-> | Hne]; [done |].
    apply Hk. lia. }
  destruct Hshape as [-> | [-> Hcaught]]; settle_cases H; simpl.
  all: try (apply Hnext;
            [ simpl; by rewrite bool_decide_eq_true_2
            | lia
            | rewrite ?Ho; simpl; rewrite ?Hok; eauto ]).
  all: try (eexists; split;
            [ apply Hsame; done
            | rewrite ?Ho; simpl; rewrite ?Hok; split; [done | intros _; lia] ]).
  - split; [by apply Hsame |]. rewrite Ho. simpl. by rewrite Hok.
  - simpl in Hcaught.
    destruct (ok o) eqn:Hok; [| done].
    destruct (body o) eqn:Hbody; simpl; eexists; (split; [by apply Hsame |]);
      rewrite Ho; simpl; rewrite Hok, Hbody; [done |].
    split; [done |]. by intros [? ?].
Qed.
End Chains.

(** ** Starting a batch *)

Lemma startBatch_chains cfg currentBatch : forall pos cs,
  (pos + length currentBatch <= length cs)%nat ->
  (startBatch cfg pos currentBatch cs).1 =
    take pos cs ++ replicate (length currentBatch) (Fetching 1)
      ++ drop (pos + length currentBatch) cs.
Proof.
  induction currentBatch as [|url rest IH]; intros pos cs Hlen; simpl in *.
  - rewrite Nat.add_0_r. by rewrite take_drop.
  - specialize (IH (S pos) (<[pos:=Fetching 1]> cs)).
    rewrite length_insert in IH. specialize (IH ltac:(lia)).
    destruct (startBatch cfg (S pos) rest (<[pos:=Fetching 1]> cs)) as [cs' e2].
    simpl in *. rewrite IH.
    rewrite (take_S_r _ _ (Fetching 1)) by (apply list_lookup_insert_eq; lia).
    rewrite take_insert_ge by lia.
    rewrite drop_insert_lt by lia.
    replace (pos + S (length rest))%nat with (S pos + length rest)%nat by lia.
    by rewrite <- app_assoc.
Qed.

Lemma startBatch_counts cfg currentBatch : forall pos cs q,
  let effs := (startBatch cfg pos currentBatch cs).2 in
  let here := inBatch pos (length currentBatch) q in
  count (isFetch q) effs = (if here then 1 else 0)%nat /\
  (forall a,
     count (isFetchAt q a) effs = (if here && bool_decide (a = 1) then 1%nat else O) /\
     count (isSetTimeout q a) effs = (if here && bool_decide (a = 1) then 1%nat else O) /\
     count (isClearTimeout q a) effs = O /\
     count (isAbort q a) effs = O /\
     forall st,
       foldl (timerStep q a) st effs =
         if here && bool_decide (a = 1) then (true, st.2) else st) /\
  batchesRun effs = [].
Proof.
  unfold inBatch.
  induction currentBatch as [|url rest IH]; intros pos cs q; simpl.
  - rewrite bool_decide_eq_false_2 by lia. done.
  - specialize (IH (S pos) (<[pos:=Fetching 1]> cs) q).
    destruct (startBatch cfg (S pos) rest (<[pos:=Fetching 1]> cs)) as [cs' e2].
    simpl in *. destruct IH as (IH1 & IH2 & IH3).
    split; [| split; [| done]].
    + rewrite IH1. repeat case_bool_decide; simpl; lia.
    + intros a. destruct (IH2 a) as (-> & -> & -> & -> & IHt).
      repeat split; try (repeat case_bool_decide; simpl; try lia; done).
      intros st. rewrite IHt. unfold timerStep. simpl.
      repeat case_bool_decide; simpl; try lia; done.
Qed.

Lemma startBatch_quiet cfg currentBatch : forall pos cs q,
  inBatch pos (length currentBatch) q = false ->
  quiet q (startBatch cfg pos currentBatch cs).2.
Proof.
  unfold inBatch.
  induction currentBatch as [|url rest IH]; intros pos cs q Hq; simpl.
  - apply Forall_nil_2.
  - apply bool_decide_eq_false_1 in Hq. simpl in Hq.
    specialize (IH (S pos) (<[pos:=Fetching 1]> cs) q).
    destruct (startBatch cfg (S pos) rest (<[pos:=Fetching 1]> cs)) as [cs' e2].
    simpl in *.
    repeat (apply Forall_cons_2; [simpl; intros [= ->]; lia |]).
    apply IH. apply bool_decide_eq_false_2. lia.
Qed.

(** A chain outside the batch does not see its start. *)
Lemma startBatch_posOk_other cfg env currentBatch pos cs tr q c :
  inBatch pos (length currentBatch) q = false ->
  posOk cfg env tr q c ->
  posOk cfg env (tr ++ (startBatch cfg pos currentBatch cs).2) q c.
Proof. intros Hout Hok. apply posOk_quiet; [by apply startBatch_quiet | done]. Qed.

(** A chain of the batch is started by it. *)
Lemma startBatch_posOk_here cfg env currentBatch pos cs tr q :
  inBatch pos (length currentBatch) q = true ->
  posOk cfg env tr q NotStarted ->
  posOk cfg env (tr ++ (startBatch cfg pos currentBatch cs).2) q (Fetching 1).
Proof.
  intros Hin H0.
  destruct (startBatch_counts cfg currentBatch pos cs q) as (Hf & Hcounts & _).
  cbn zeta in *. rewrite Hin in *. simpl in Hcounts.
  apply posOk_started; try done; intros a;
    destruct (Hcounts a) as (? & ? & ? & ? & Htm); try done.
  rewrite Htm. by case_bool_decide.
Qed.

(** ** Promise.all *)

Lemma promiseAll_Some cs vs :
  promiseAll cs = Some vs <-> cs = Fulfilled <$> vs.
Proof.
  revert vs. induction cs as [|c cs IH]; intros vs; simpl.
  - split; [intros [= <-]; done | by destruct vs].
  - destruct c; try (split; [done | by destruct vs]).
    destruct (promiseAll cs) as [ws|] eqn:Hcs; simpl.
    + split.
      * intros [= <-]. simpl. f_equal. by apply IH.
      * destruct vs as [|v' vs]; [done |]. intros [= -> Heq].
        apply IH in Heq. congruence.
    + split; [done |]. destruct vs as [|v' vs]; [done |].
      intros [= -> Heq]. by apply IH in Heq.
Qed.

Lemma promiseAll_fmap vs : promiseAll (Fulfilled <$> vs) = Some vs.
Proof. by apply promiseAll_Some. Qed.

(** While [Promise.all] is neither fulfilled nor rejected, one of its
    promises is pending. *)
Lemma promiseAll_None_pending cs :
  promiseAll cs = None ->
  (forall j c, cs !! j = Some c -> c <> NotStarted /\ forall e, c <> Rejected e) ->
  exists j c, cs !! j = Some c /\ pending c = true.
Proof.
  induction cs as [|c cs IH]; simpl; [done |]. intros Hnone Hall.
  destruct (pending c) eqn:Hp.
  - by exists O, c.
  - destruct (Hall O c eq_refl) as [Hns Hrej].
    destruct c; try done; [| by destruct (Hrej e)].
    destruct (promiseAll cs) eqn:Hcs; [done |].
    destruct IH as (j & c & Hj & Hc); [done | |].
    + intros j c Hj. by apply (Hall (S j)).
    + by exists (S j), c.
Qed.

Lemma outstanding_app cs1 cs2 :
  outstanding (cs1 ++ cs2) = (outstanding cs1 + outstanding cs2)%nat.
Proof. induction cs1 as [|c cs1 IH]; simpl; [done | rewrite IH; lia]. Qed.

Lemma outstanding_le_length cs : (outstanding cs <= length cs)%nat.
Proof. induction cs as [|c cs IH]; simpl; [lia | destruct (pending c); lia]. Qed.

Lemma outstanding_pending cs p c :
  cs !! p = Some c -> pending c = true -> (1 <= outstanding cs)%nat.
Proof.
  revert p. induction cs as [|c0 cs IH]; intros [|p] Hp Hc; simplify_eq/=.
  - rewrite Hc. lia.
  - specialize (IH p Hp Hc). lia.
Qed.

Lemma outstanding_zero cs :
  (forall j c, cs !! j = Some c -> pending c = false) -> outstanding cs = O.
Proof.
  induction cs as [|c cs IH]; simpl; [done |]. intros Hall.
  rewrite (Hall O c eq_refl), IH; [done |].
  intros j c' Hj. by apply (Hall (S j)).
Qed.

(** ** The invariant of the batch loop, for a positive batch size *)

Section Scheduler.
Variable cfg : Config.
Variable env : Network.
Variable urls : list string.
Hypothesis Hb : 1 <= batchSize cfg.

Local Abbreviation batchWidth := (batchWidth cfg).
Local Abbreviation batchTotal := (batchTotal cfg urls).
Local Abbreviation theBatch := (theBatch cfg urls).
Local Abbreviation allBatches := (allBatches cfg urls).
Local Abbreviation Between := (Between cfg env urls).
Local Abbreviation Frontier := (Frontier cfg urls).
Local Abbreviation mainOk := (mainOk cfg urls).
Local Abbreviation Inv := (Inv cfg env urls).
Local Abbreviation budget := (budget cfg).
Local Abbreviation potential := (potential cfg).
Local Abbreviation load := (load cfg).
Local Abbreviation fullBatch := (fullBatch cfg).
Local Abbreviation measure := (measure cfg urls).

Lemma batchWidth_pos : (1 <= batchWidth)%nat.
Proof. unfold batchWidth. lia. Qed.

Lemma batchTotal_covers : (length urls <= batchTotal * batchWidth)%nat.
Proof. apply batchCount_spec, Hb. Qed.

Lemma batchTotal_lt i : (i < batchTotal)%nat -> (i * batchWidth < length urls)%nat.
Proof. apply batchCount_spec, Hb. Qed.

Lemma theBatch_length i :
  length (theBatch i) = Nat.min batchWidth (length urls - i * batchWidth).
Proof. unfold theBatch. by rewrite length_take, length_drop. Qed.

Lemma allBatches_S k : allBatches (S k) = allBatches k ++ [(k, theBatch k)].
Proof. unfold allBatches. by rewrite seq_S, fmap_app. Qed.

Lemma quiet_singleton_None q e : posOf e = None -> quiet q [e].
Proof. intros H. apply Forall_cons_2; [congruence | apply Forall_nil_2]. Qed.

(** Entering the loop between two iterations establishes the invariant. *)
Lemma forLoop_between s i :
  Between s i -> Inv (forLoop cfg urls (batchTotal - i) i s).
Proof.
  intros [Hi Hlen Hit Hdone Hrest Hruns Hpos Hbey].
  destruct (batchTotal - i)%nat as [|rest] eqn:Hrem; simpl.
  - (* line 175 *)
    assert (i = batchTotal) as -> by lia.
    rewrite take_ge in Hdone by (rewrite Hlen; apply batchTotal_covers).
    constructor; simpl; try done.
    + intros p c Hp. apply posOk_quiet; [by apply quiet_singleton_None | auto].
    + intros q Hq. apply quiet_app; [auto | by apply quiet_singleton_None].
    + unfold mainOk; simpl. repeat split; [done |].
      by rewrite batchesRun_app, Hruns, app_nil_r.
  - (* line 167 *)
    assert (Hlt : (i < batchTotal)%nat) by lia.
    pose proof (batchTotal_lt i Hlt) as Hin.
    pose proof batchWidth_pos as Hw.
    rewrite slice_batch by done. fold batchWidth. fold (theBatch i).
    pose proof (theBatch_length i) as Hbl.
    destruct (theBatch i) as [|u us] eqn:Hbatch; [simpl in Hbl; lia |].
    rewrite <- Hbatch in *. clear Hbatch u us.
    rewrite relIndex_batch by done. fold batchWidth.
    rewrite Nat.min_l by lia.
    assert (Hfit : (i * batchWidth + length (theBatch i) <= length (chains s))%nat)
      by lia.
    pose proof (startBatch_chains cfg (theBatch i) (i * batchWidth) (chains s) Hfit)
      as Hcs.
    pose proof (fun q c => startBatch_posOk_other cfg env (theBatch i)
                  (i * batchWidth) (chains s)
                  (trace s ++ [EIteration i (theBatch i)]) q c) as Hother.
    pose proof (fun q => startBatch_posOk_here cfg env (theBatch i)
                  (i * batchWidth) (chains s)
                  (trace s ++ [EIteration i (theBatch i)]) q) as Hhere.
    pose proof (startBatch_counts cfg (theBatch i) (i * batchWidth) (chains s) O)
      as (_ & _ & Hquiet).
    pose proof (startBatch_quiet cfg (theBatch i) (i * batchWidth) (chains s))
      as Hsq.
    destruct (startBatch cfg (i * batchWidth) (theBatch i) (chains s))
      as [cs effs]. simpl in Hcs, Hother, Hhere, Hquiet, Hsq. subst cs.
    assert (Hlook : forall p,
      (take (i * batchWidth) (chains s)
         ++ replicate (length (theBatch i)) (Fetching 1)
         ++ drop (i * batchWidth + length (theBatch i)) (chains s)) !! p =
      if inBatch (i * batchWidth) (length (theBatch i)) p
      then Some (Fetching 1) else chains s !! p).
    { intros p. unfold inBatch. case_bool_decide as Hp.
      - rewrite lookup_app_r by (rewrite length_take; lia).
        rewrite length_take, Nat.min_l by lia.
        rewrite lookup_app_l by (rewrite length_replicate; lia).
        apply lookup_replicate_2. lia.
      - destruct (decide (p < i * batchWidth)%nat).
        + rewrite lookup_app_l by (rewrite length_take; lia).
          by rewrite lookup_take_lt.
        + rewrite lookup_app_r by (rewrite length_take; lia).
          rewrite length_take, Nat.min_l by lia.
          rewrite lookup_app_r by (rewrite length_replicate; lia).
          rewrite length_replicate, lookup_drop. f_equal. lia. }
    constructor; simpl.
    + rewrite !length_app, length_take, length_replicate, length_drop. lia.
    + done.
    + intros p c. rewrite Hlook.
      replace (trace s ++ EIteration i (theBatch i) :: effs)
        with ((trace s ++ [EIteration i (theBatch i)]) ++ effs)
        by (by rewrite <- app_assoc).
      destruct (inBatch (i * batchWidth) (length (theBatch i)) p) eqn:Hp.
      * intros [= <-]. apply Hhere; [done |].
        apply posOk_quiet; [by apply quiet_singleton_None |].
        unfold inBatch in Hp. apply bool_decide_eq_true_1 in Hp.
        destruct (lookup_lt_is_Some_2 (chains s) p ltac:(lia)) as [c Hc].
        rewrite (Hrest p c ltac:(lia) Hc) in Hc. auto.
      * intros Hc. apply Hother; [done |].
        apply posOk_quiet; [by apply quiet_singleton_None | auto].
    + intros q Hq. apply quiet_app; [auto |].
      apply Forall_cons_2; [done |]. apply Hsq.
      unfold inBatch. apply bool_decide_eq_false_2. lia.
    + unfold mainOk; simpl. split; [| split].
      * constructor; simpl.
        -- done.
        -- rewrite take_app_le by (rewrite length_take; lia).
           rewrite take_take, Nat.min_id. done.
        -- intros p c Hp. rewrite Hlook. unfold inBatch.
           case_bool_decide as Hq; [by intros [= <-] |].
           intros Hc. apply lookup_lt_Some in Hc. lia.
        -- intros p c Hp. rewrite Hlook. unfold inBatch.
           rewrite bool_decide_eq_false_2 by lia.
           apply Hrest. lia.
        -- rewrite batchesRun_app. simpl. rewrite Hquiet, Hruns.
           by rewrite allBatches_S.
      * intros p e. rewrite Hlook.
        destruct (inBatch (i * batchWidth) (length (theBatch i)) p) eqn:Hp;
          [done |].
        intros Hc. unfold inBatch in Hp. apply bool_decide_eq_false_1 in Hp.
        destruct (decide (p < i * batchWidth)%nat) as [Hlo | Hhi].
        -- assert (Ht : take (i * batchWidth) (chains s) !! p = Some (Rejected e))
             by (by rewrite lookup_take_lt).
           rewrite Hdone, list_lookup_fmap in Ht.
           by destruct (results s !! p).
        -- by specialize (Hrest p _ ltac:(lia) Hc).
      * rewrite drop_app_length' by (rewrite length_take; lia).
        destruct (theBatch i) as [|u us]; [simpl in Hbl; lia |].
        destruct batchWidth as [|w] eqn:Hweq; [lia | done].
Qed.

Lemma settle_started p url c c' effs :
  pending c = true -> settle cfg env p url c = (c', effs) -> c' <> NotStarted.
Proof.
  intros Hp H. settle_cases H; try done.
  by destruct (body o).
Qed.

(** A pending chain belongs to the batch of the frontier. *)
Lemma Frontier_pending s i p c :
  Frontier s i -> chains s !! p = Some c -> pending c = true ->
  (i * batchWidth <= p < (i + 1) * batchWidth)%nat.
Proof.
  intros [_ Hdone _ Hrest _] Hc Hp.
  destruct (decide (p < i * batchWidth)%nat) as [Hlo | Hlo].
  - assert (Ht : take (i * batchWidth) (chains s) !! p = Some c)
      by (by rewrite lookup_take_lt).
    rewrite Hdone, list_lookup_fmap in Ht.
    destruct (results s !! p); simplify_eq/=.
  - destruct (decide (p < (i + 1) * batchWidth)%nat) as [Hhi | Hhi]; [lia |].
    rewrite (Hrest p c ltac:(lia) Hc) in Hp. done.
Qed.

(** A reaction inside the batch keeps the frontier. *)
Lemma Frontier_insert s i p c' tr :
  Frontier s i ->
  (i * batchWidth <= p < (i + 1) * batchWidth)%nat ->
  c' <> NotStarted -> batchesRun tr = batchesRun (trace s) ->
  Frontier {| main := main s; iterations := iterations s;
              results := results s; chains := <[p:=c']> (chains s);
              trace := tr |} i.
Proof.
  intros [Hi Hdone Hstarted Hrest Hruns] Hp Hc' Htr.
  constructor; simpl.
  - done.
  - by rewrite take_insert_ge by lia.
  - intros q c Hq. destruct (decide (p = q)) as [-> | Hne].
    + intros Hc. apply list_lookup_insert_Some in Hc as [(_ & <- & _) | (? & _)]; done.
    + rewrite list_lookup_insert_ne by done. eauto.
  - intros q c Hq. rewrite list_lookup_insert_ne by lia. eauto.
  - by rewrite Htr.
Qed.

Lemma Frontier_trace s i main' tr :
  Frontier s i -> batchesRun tr = batchesRun (trace s) ->
  Frontier {| main := main'; iterations := iterations s;
              results := results s; chains := chains s; trace := tr |} i.
Proof. intros [? ? ? ? ?] Htr. constructor; simpl; try done. by rewrite Htr. Qed.

(** Every reaction keeps the invariant. *)
Lemma step_Inv s p : Inv s -> Inv (step cfg env urls s p).
Proof.
  intros HI. pose proof HI as [Hlen Hit Hpos Hbey Hmain]. unfold step.
  destruct (chains s !! p) as [c|] eqn:Hc; [| done].
  destruct (urls !! p) as [url|] eqn:Hurl; [| done].
  destruct (pending c) eqn:Hpend; [| done].
  destruct (settle cfg env p url c) as [c' effs] eqn:Hsettle.
  pose proof (settle_started _ _ _ _ _ Hpend Hsettle) as Hc'.
  pose proof (settle_batchesRun _ _ _ _ _ _ _ Hsettle) as Hbr.
  assert (Hpos1 : forall q c1, <[p:=c']> (chains s) !! q = Some c1 ->
                    posOk cfg env (trace s ++ effs) q c1).
  { intros q c1. destruct (decide (p = q)) as [<- | Hne].
    - rewrite list_lookup_insert_eq by (by eapply lookup_lt_Some).
      intros [= <-]. eapply settle_posOk; eauto.
    - rewrite list_lookup_insert_ne by done. intros Hq.
      apply posOk_quiet; [| auto]. eapply settle_quiet; eauto. }
  assert (Hbr1 : batchesRun (trace s ++ effs) = batchesRun (trace s))
    by (by rewrite batchesRun_app, Hbr, app_nil_r).
  assert (Hbey1 : forall q, (length urls <= q)%nat -> quiet q (trace s ++ effs)).
  { intros q Hq. apply quiet_app; [auto |].
    eapply settle_quiet; [done |]. apply lookup_lt_Some in Hurl. lia. }
  unfold mainOk in Hmain.
  destruct (main s) as [i | rs | e] eqn:Hm.
  - (* suspended at line 168 *)
    destruct Hmain as (Hfr & Hnorej & Hnone).
    pose proof (Frontier_pending s i p c Hfr Hc Hpend) as Hrange.
    pose proof (Frontier_insert s i p c' (trace s ++ effs) Hfr Hrange Hc' Hbr1)
      as Hfr1.
    rewrite Hm in Hfr1.
    unfold batchSettled.
    assert (Hrej : forall e, c' = Rejected e ->
      Inv (rethrow {| main := Awaiting i; iterations := iterations s;
                      results := results s; chains := <[p:=c']> (chains s);
                      trace := trace s ++ effs |} (err_message e))).
    { intros e ->. constructor; simpl.
      - by rewrite length_insert.
      - done.
      - intros q c1 Hq. apply posOk_quiet; [by apply quiet_singleton_None | auto].
      - intros q Hq. apply quiet_app; [auto | by apply quiet_singleton_None].
      - unfold mainOk; simpl. exists i. split.
        + apply (Frontier_trace _ _ (Thrown (newError (err_message e))) _ Hfr1).
          simpl. by rewrite batchesRun_app, app_nil_r.
        + exists p, e. split; [| done].
          apply list_lookup_insert_eq. by eapply lookup_lt_Some. }
    assert (Hother : (forall e, c' <> Rejected e) ->
      Inv (match promiseAll (slice (<[p:=c']> (chains s))
                   (Z.of_nat i * batchSize cfg)
                   ((Z.of_nat i + 1) * batchSize cfg)) with
           | Some batchResults =>
               forLoop cfg urls (iterations s - S i) (S i)
                 {| main := Awaiting i; iterations := iterations s;
                    results := results s ++ batchResults;
                    chains := <[p:=c']> (chains s);
                    trace := trace s ++ effs |}
           | None =>
               {| main := Awaiting i; iterations := iterations s;
                  results := results s; chains := <[p:=c']> (chains s);
                  trace := trace s ++ effs |}
           end)).
    { intros Hnr. rewrite slice_batch by done. fold batchWidth.
      destruct (promiseAll (take batchWidth
                  (drop (i * batchWidth) (<[p:=c']> (chains s)))))
        as [batchResults|] eqn:Hall.
      - rewrite Hit. apply forLoop_between.
        destruct Hfr1 as [Hi1 Hdone1 Hstarted1 Hrest1 Hruns1]. simpl in *.
        constructor; simpl.
        + lia.
        + by rewrite length_insert.
        + done.
        + apply promiseAll_Some in Hall.
          replace (batchWidth + i * batchWidth)%nat
            with (i * batchWidth + batchWidth)%nat by lia.
          rewrite <- take_take_drop, Hdone1, Hall. by rewrite fmap_app.
        + intros q c1 Hq. apply Hrest1. lia.
        + done.
        + done.
        + done.
      - constructor; simpl.
        + by rewrite length_insert.
        + done.
        + done.
        + done.
        + unfold mainOk; simpl. split; [done |]. split; [| done].
          intros q e. destruct (decide (p = q)) as [<- | Hne].
          * rewrite list_lookup_insert_eq by (by eapply lookup_lt_Some).
            intros [= ->]. by eapply Hnr.
          * rewrite list_lookup_insert_ne by done. apply Hnorej. }
    destruct c'; try (apply Hother; done). by apply Hrej.
  - (* returned: no chain is pending *)
    destruct Hmain as (_ & Hall & _).
    rewrite Hall, list_lookup_fmap in Hc.
    destruct (rs !! p); simplify_eq/=.
  - (* thrown: the abandoned chains go on *)
    destruct Hmain as (i & Hfr & p0 & e0 & Hp0 & ->).
    pose proof (Frontier_pending s i p c Hfr Hc Hpend) as Hrange.
    pose proof (Frontier_insert s i p c' (trace s ++ effs) Hfr Hrange Hc' Hbr1)
      as Hfr1.
    rewrite Hm in Hfr1.
    constructor; simpl.
    + by rewrite length_insert.
    + done.
    + done.
    + done.
    + unfold mainOk; simpl. exists i. split; [done |].
      exists p0, e0. split; [| done].
      rewrite list_lookup_insert_ne; [done |].
      intros ->. rewrite Hc in Hp0. by simplify_eq.
Qed.

Lemma runFrom_Inv schedule : forall s,
  Inv s -> Inv (runFrom cfg env urls s schedule).
Proof.
  induction schedule as [|p schedule IH]; intros s HI; simpl; [done |].
  apply IH. by apply step_Inv.
Qed.

(** *** Progress *)

Lemma load_app cs1 cs2 : load (cs1 ++ cs2) = (load cs1 + load cs2)%nat.
Proof. induction cs1 as [|c cs1 IH]; simpl; [done | rewrite IH; lia]. Qed.

Lemma load_insert cs p c c' :
  cs !! p = Some c ->
  (load (<[p:=c']> cs) + potential c = load cs + potential c')%nat.
Proof.
  revert p. induction cs as [|c0 cs IH]; intros [|p] Hp; simplify_eq/=.
  - lia.
  - specialize (IH p Hp). lia.
Qed.

Lemma load_zero cs :
  (forall j c, cs !! j = Some c -> pending c = false) -> load cs = O.
Proof.
  induction cs as [|c cs IH]; simpl; [done |]. intros Hall.
  rewrite IH by (intros j c' Hj; by apply (Hall (S j))).
  specialize (Hall O c eq_refl). by destruct c.
Qed.

Lemma load_bound cs n :
  (forall j c, cs !! j = Some c -> (potential c <= n)%nat) ->
  (load cs <= length cs * n)%nat.
Proof.
  induction cs as [|c cs IH]; simpl; [lia |]. intros Hall.
  specialize (IH (fun j c' Hj => Hall (S j) c' Hj)).
  specialize (Hall O c eq_refl). lia.
Qed.

Lemma potential_bound tr p c :
  posOk cfg env tr p c -> (potential c <= 2 * Z.to_nat budget)%nat.
Proof.
  intros [Hc _].
  destruct c as [|a|a|v|e]; cbn [potential chainOk] in *; unfold budget; try lia.
  destruct Hc as (? & _). lia.
Qed.

(** A reaction strictly lowers the potential of its chain. *)
Lemma settle_potential tr p url c c' effs :
  posOk cfg env tr p c -> pending c = true ->
  settle cfg env p url c = (c', effs) ->
  (potential c' < potential c)%nat.
Proof.
  intros [Hc _] Hp H.
  settle_cases H; try discriminate; cbn [potential chainOk] in *;
    unfold budget;
    try (destruct Hc as (? & ? & ? & ?); lia);
    try (destruct Hc as [_ Hcaught]; rewrite Ho in Hcaught; discriminate).
  destruct (body o); cbn; lia.
Qed.

(** In iteration [i] the chains in flight are those of batch [i]. *)
Lemma Frontier_split s i :
  Frontier s i ->
  (forall j c, take (i * batchWidth) (chains s) !! j = Some c -> pending c = false) /\
  (forall j c, drop (i * batchWidth + batchWidth) (chains s) !! j = Some c ->
               pending c = false).
Proof.
  intros [_ Hdone _ Hrest _]. split.
  - intros j c. rewrite Hdone, list_lookup_fmap.
    destruct (results s !! j); by intros [= <-].
  - intros j c. rewrite lookup_drop. intros Hc.
    by rewrite (Hrest (i * batchWidth + batchWidth + j)%nat c ltac:(lia) Hc).
Qed.

Lemma chains_split (cs : list Chain) lo w :
  cs = take lo cs ++ take w (drop lo cs) ++ drop (lo + w) cs.
Proof. by rewrite app_assoc, take_take_drop, take_drop. Qed.

Lemma load_Frontier s i :
  Inv s -> Frontier s i ->
  (load (chains s) <= batchWidth * (2 * Z.to_nat budget))%nat.
Proof.
  intros [_ _ Hpos _ _] Hfr.
  destruct (Frontier_split s i Hfr) as [Hlo Hhi].
  rewrite (chains_split (chains s) (i * batchWidth) batchWidth).
  rewrite !load_app, (load_zero _ Hlo), (load_zero _ Hhi).
  pose proof (load_bound (take batchWidth (drop (i * batchWidth) (chains s)))
                (2 * Z.to_nat budget)) as Hbound.
  rewrite length_take in Hbound.
  assert (load (take batchWidth (drop (i * batchWidth) (chains s))) <=
          Nat.min batchWidth (length (drop (i * batchWidth) (chains s)))
          * (2 * Z.to_nat budget))%nat; [| nia].
  apply Hbound. intros j c Hj.
  apply lookup_take_Some in Hj as [Hj _]. rewrite lookup_drop in Hj.
  eapply potential_bound, Hpos, Hj.
Qed.

Lemma outstanding_Frontier s i :
  Frontier s i -> (outstanding (chains s) <= batchWidth)%nat.
Proof.
  intros Hfr. destruct (Frontier_split s i Hfr) as [Hlo Hhi].
  rewrite (chains_split (chains s) (i * batchWidth) batchWidth).
  rewrite !outstanding_app, (outstanding_zero _ Hlo), (outstanding_zero _ Hhi).
  pose proof (outstanding_le_length
                (take batchWidth (drop (i * batchWidth) (chains s)))) as Hle.
  rewrite length_take in Hle. lia.
Qed.

Lemma forLoop_main remaining : forall i s,
  (exists rs, main (forLoop cfg urls remaining i s) = Returned rs) \/
  (exists j, (i <= j)%nat /\ main (forLoop cfg urls remaining i s) = Awaiting j).
Proof.
  induction remaining as [|rest IH]; intros i s; simpl; [eauto |].
  destruct (slice urls _ _) as [|u us].
  - destruct (IH (S i) {| main := main s; iterations := iterations s;
                           results := results s; chains := chains s;
                           trace := trace s ++ [EIteration i []] |})
      as [? | (j & ? & ?)]; [eauto |]. right. exists j. split; [lia | done].
  - destruct (startBatch _ _ _ _). simpl. eauto.
Qed.

(** While [parallelCalls] is suspended, an attempt is in flight. *)
Lemma Awaiting_pending s i :
  Inv s -> main s = Awaiting i ->
  exists p c url,
    chains s !! p = Some c /\ pending c = true /\ urls !! p = Some url.
Proof.
  intros [Hlen _ _ _ Hmain] Hm. unfold mainOk in Hmain. rewrite Hm in Hmain.
  destruct Hmain as ([_ _ Hstarted _ _] & Hnorej & Hnone).
  apply promiseAll_None_pending in Hnone as (j & c & Hj & Hp).
  - apply lookup_take_Some in Hj as [Hj Hlt]. rewrite lookup_drop in Hj.
    destruct (lookup_lt_is_Some_2 urls (i * batchWidth + j)) as [url Hurl].
    { rewrite <- Hlen. by eapply lookup_lt_Some. }
    eauto 7.
  - intros j c Hj.
    apply lookup_take_Some in Hj as [Hj Hlt]. rewrite lookup_drop in Hj.
    split.
    + apply (Hstarted (i * batchWidth + j)%nat); [lia | done].
    + intros e ->. by apply (Hnorej _ _ Hj).
Qed.

(** Once no attempt is in flight, [parallelCalls] has settled. *)
Lemma Inv_quiescent s :
  Inv s -> outstanding (chains s) = O -> settled s.
Proof.
  intros HI Hz. unfold settled.
  destruct (main s) as [i | rs | e] eqn:Hm; [| done | done].
  destruct (Awaiting_pending s i HI Hm) as (p & c & _ & Hc & Hp & _).
  pose proof (outstanding_pending _ _ _ Hc Hp). lia.
Qed.

Lemma measure_Awaiting s i :
  Inv s -> main s = Awaiting i -> (1 <= measure s)%nat.
Proof.
  intros [_ _ _ _ Hmain] Hm. unfold mainOk in Hmain. rewrite Hm in Hmain.
  destruct Hmain as ([Hi _ _ _ _] & _). unfold measure, fullBatch.
  rewrite Hm. nia.
Qed.

(** Every reaction of a chain in flight brings [parallelCalls] closer to
    its settlement. *)
Lemma step_measure s i p c url :
  Inv s -> main s = Awaiting i ->
  chains s !! p = Some c -> pending c = true -> urls !! p = Some url ->
  (measure (step cfg env urls s p) < measure s)%nat.
Proof.
  intros HI Hm Hc Hpend Hurl.
  pose proof (measure_Awaiting s i HI Hm) as Hpos.
  pose proof (step_Inv s p HI) as HI'. revert HI'.
  pose proof HI as [_ Hit Hposs _ Hmain].
  unfold mainOk in Hmain. rewrite Hm in Hmain.
  destruct Hmain as (Hfr & _ & _). pose proof Hfr as [Hi _ _ _ _].
  unfold step. rewrite Hc, Hurl, Hpend, Hm.
  destruct (settle cfg env p url c) as [c' effs] eqn:Hsettle.
  pose proof (settle_potential _ _ _ _ _ _ (Hposs p c Hc) Hpend Hsettle) as Hlow.
  pose proof (load_insert (chains s) p c c' Hc) as Hload.
  unfold batchSettled.
  assert (Hother :
    let s' :=
      match promiseAll (slice (<[p:=c']> (chains s))
              (Z.of_nat i * batchSize cfg)
              ((Z.of_nat i + 1) * batchSize cfg)) with
      | Some batchResults =>
          forLoop cfg urls (iterations s - S i) (S i)
            {| main := Awaiting i; iterations := iterations s;
               results := results s ++ batchResults;
               chains := <[p:=c']> (chains s);
               trace := trace s ++ effs |}
      | None =>
          {| main := Awaiting i; iterations := iterations s;
             results := results s; chains := <[p:=c']> (chains s);
             trace := trace s ++ effs |}
      end in
    Inv s' -> (measure s' < measure s)%nat).
  { cbn zeta.
    destruct (promiseAll _) as [batchResults|].
    - intros HI'.
      destruct (forLoop_main (iterations s - S i) (S i)
                  {| main := Awaiting i; iterations := iterations s;
                     results := results s ++ batchResults;
                     chains := <[p:=c']> (chains s);
                     trace := trace s ++ effs |})
        as [[rs Hr] | (j & Hj & Hr)].
      + unfold measure at 1. rewrite Hr. lia.
      + pose proof HI' as [_ _ _ _ Hmain']. unfold mainOk in Hmain'.
        rewrite Hr in Hmain'. destruct Hmain' as (Hfr' & _ & _).
        pose proof (load_Frontier _ j HI' Hfr') as Hl.
        pose proof Hfr' as [Hj' _ _ _ _].
        unfold measure. rewrite Hr, Hm. unfold fullBatch in *. nia.
    - intros _. unfold measure. simpl. rewrite Hm. lia. }
  destruct c'; try exact Hother.
  intros _. unfold measure at 1. simpl. lia.
Qed.

(** From every state of a run some schedule settles [parallelCalls]. *)
Lemma eventually_settled n : forall s,
  Inv s -> (measure s <= n)%nat ->
  exists schedule, settled (runFrom cfg env urls s schedule).
Proof.
  induction n as [|n IH]; intros s HI Hn.
  - exists []. unfold settled. simpl.
    destruct (main s) eqn:Hm; try done.
    pose proof (measure_Awaiting s _ HI Hm). lia.
  - destruct (main s) as [i | rs | e] eqn:Hm.
    + destruct (Awaiting_pending s i HI Hm) as (p & c & url & Hc & Hp & Hurl).
      pose proof (step_measure s i p c url HI Hm Hc Hp Hurl) as Hlt.
      destruct (IH (step cfg env urls s p)) as [schedule Hs].
      * by apply step_Inv.
      * lia.
      * by exists (p :: schedule).
    + exists []. unfold settled. simpl. by rewrite Hm.
    + exists []. unfold settled. simpl. by rewrite Hm.
Qed.
End Scheduler.

(** ** Runs of [parallelCalls] *)

Lemma runFrom_app cfg env urls s l1 l2 :
  runFrom cfg env urls s (l1 ++ l2) =
    runFrom cfg env urls (runFrom cfg env urls s l1) l2.
Proof. apply foldl_app. Qed.

Lemma run_app env urls options l1 l2 :
  run env urls options (l1 ++ l2) =
    runFrom (resolveOptions options) env urls (run env urls options l1) l2.
Proof. apply runFrom_app. Qed.

Lemma posOk_empty cfg env p : posOk cfg env [] p NotStarted.
Proof.
  split; [done |]. intros a. cbn zeta. unfold attemptsMade. simpl.
  by rewrite bool_decide_eq_false_2 by lia.
Qed.

(** The call establishes the invariant of the loop. *)
Lemma parallelCalls_Inv env urls options :
  1 <= batchSize (resolveOptions options) ->
  Inv (resolveOptions options) env urls (parallelCalls urls options).
Proof.
  intros Hb. unfold parallelCalls. rewrite newArray_positive by done.
  cbn [main results chains trace].
  pose proof (forLoop_between (resolveOptions options) env urls Hb
    {| main := Awaiting 0;
       iterations := batchCount (length urls) (batchSize (resolveOptions options));
       results := [];
       chains := replicate (length urls) NotStarted;
       trace := [] |} 0) as H.
  unfold batchTotal in H at 1. rewrite Nat.sub_0_r in H. apply H.
  constructor; simpl.
  - lia.
  - by rewrite length_replicate.
  - done.
  - done.
  - intros p c _ Hc. by apply lookup_replicate_1 in Hc as [-> _].
  - done.
  - intros p c Hc. apply lookup_replicate_1 in Hc as [-> _]. apply posOk_empty.
  - intros q _. apply Forall_nil_2.
Qed.

Lemma run_Inv env urls options schedule :
  1 <= batchSize (resolveOptions options) ->
  Inv (resolveOptions options) env urls (run env urls options schedule).
Proof.
  intros Hb. apply runFrom_Inv; [done |]. by apply parallelCalls_Inv.
Qed.

(** Without a positive batch size nothing is ever started: either
    [Array] throws at line 165 or the loop has no iteration. *)
Lemma parallelCalls_nonpositive urls options :
  batchSize (resolveOptions options) <= 0 ->
  chains (parallelCalls urls options) = replicate (length urls) NotStarted /\
  results (parallelCalls urls options) = [] /\
  ((main (parallelCalls urls options) = Thrown (newError "Invalid array length") /\
    trace (parallelCalls urls options) = [ELogError "Invalid array length"]) \/
   (main (parallelCalls urls options) = Returned [] /\
    trace (parallelCalls urls options) = [ELogResponses []])).
Proof.
  intros Hb. unfold parallelCalls, mathCeilDiv, newArray.
  destruct (Z.eqb_spec (batchSize (resolveOptions options)) 0) as [Hz | Hz].
  - simpl. auto.
  - assert (Hq : 0 <= - Z.of_nat (length urls) / batchSize (resolveOptions options)).
    { pose proof (Z.div_mod (- Z.of_nat (length urls))
                    (batchSize (resolveOptions options)) Hz) as Hdm.
      pose proof (Z.mod_neg_bound (- Z.of_nat (length urls))
                    (batchSize (resolveOptions options)) ltac:(lia)) as Hm.
      nia. }
    destruct (Z.leb_spec 0
      (- (- Z.of_nat (length urls) / batchSize (resolveOptions options))))
      as [Hle | Hlt].
    + replace (- (- Z.of_nat (length urls) / batchSize (resolveOptions options)))
        with 0 by lia.
      simpl. auto.
    + simpl. auto.
Qed.

Lemma step_idle cfg env urls s p :
  (forall q c, chains s !! q = Some c -> pending c = false) ->
  step cfg env urls s p = s.
Proof.
  intros Hidle. unfold step.
  destruct (chains s !! p) as [c|] eqn:Hc; [| done].
  rewrite (Hidle p c Hc). by destruct (urls !! p).
Qed.

Lemma runFrom_idle cfg env urls s schedule :
  (forall q c, chains s !! q = Some c -> pending c = false) ->
  runFrom cfg env urls s schedule = s.
Proof.
  intros Hidle. induction schedule as [|p schedule IH]; simpl; [done |].
  by rewrite step_idle.
Qed.

Lemma run_nonpositive env urls options schedule :
  batchSize (resolveOptions options) <= 0 ->
  run env urls options schedule = parallelCalls urls options.
Proof.
  intros Hb. apply runFrom_idle. intros q c.
  destruct (parallelCalls_nonpositive urls options Hb) as (-> & _).
  intros Hc. by apply lookup_replicate_1 in Hc as [-> _].
Qed.

(** The invariant of every chain holds in every run. *)
Lemma run_posOk env urls options schedule p c :
  chains (run env urls options schedule) !! p = Some c ->
  posOk (resolveOptions options) env (trace (run env urls options schedule)) p c.
Proof.
  destruct (Z.le_gt_cases 1 (batchSize (resolveOptions options))) as [Hb | Hb].
  - apply (inv_pos _ _ _ _ (run_Inv env urls options schedule Hb)).
  - rewrite run_nonpositive by lia.
    destruct (parallelCalls_nonpositive urls options ltac:(lia))
      as (-> & _ & [[_ ->] | [_ ->]]);
      intros Hc; apply lookup_replicate_1 in Hc as [-> _];
      apply (posOk_quiet _ _ []); try apply posOk_empty;
      by apply quiet_singleton_None.
Qed.


(** ** Outcomes of one URL *)

Lemma attemptValue_caught o v : attemptValue o = Some v -> caughtError o = None.
Proof. destruct o as [r | e | e]; simpl; try done. by destruct (ok r). Qed.

Lemma attemptValue_error o v : attemptValue o = Some v -> attemptError o = None.
Proof.
  destruct o as [r | e | e]; simpl; try done.
  destruct (ok r); [| done]. by destruct (body r).
Qed.

Lemma caughtError_attemptError o e :
  caughtError o = Some e -> attemptError o = Some e.
Proof. destruct o as [r | e' | e']; simpl; try done. by destruct (ok r). Qed.

Lemma attempted_budget cfg env tr p a :
  attempted cfg env tr p a -> 1 <= a <= budget cfg.
Proof. intros (? & _ & ? & _). unfold budget. lia. Qed.

(** A chain whose URL succeeds within its budget is never rejected, and is
    fulfilled with the value of its first success only. *)
Lemma posOk_succeeds cfg env tr p c a v :
  posOk cfg env tr p c -> succeedsAt cfg env p a v ->
  (forall e, c <> Rejected e) /\ (forall v', c = Fulfilled v' -> v' = v).
Proof.
  intros [Hc _] ([Ha1 Ha2] & Hv & Hbefore).
  pose proof (attemptValue_caught _ _ Hv) as Hnc.
  pose proof (attemptValue_error _ _ Hv) as Hne.
  split.
  - intros e ->. simpl in Hc. destruct Hc as (a' & Hatt & Herr & Hlast).
    pose proof (attempted_budget _ _ _ _ _ Hatt) as Hb.
    destruct Hatt as (_ & _ & Hr & Hk).
    destruct (Z.lt_trichotomy a' a) as [Hlt | [-> | Hgt]].
    + specialize (Hlast (Hbefore a' ltac:(lia))). unfold budget in *. lia.
    + congruence.
    + destruct (Hk a ltac:(lia)) as [? Hsome]. congruence.
  - intros v' ->. simpl in Hc. destruct Hc as (a' & Hatt & Hv').
    destruct Hatt as (? & _ & _ & Hk).
    destruct (Z.lt_trichotomy a' a) as [Hlt | [-> | Hgt]].
    + destruct (Hbefore a' ltac:(lia)) as [? Hsome].
      apply attemptValue_caught in Hv'. congruence.
    + congruence.
    + destruct (Hk a ltac:(lia)) as [? Hsome]. congruence.
Qed.

(** A chain whose URL fails every permitted attempt is never fulfilled. *)
Lemma posOk_fails cfg env tr p c :
  posOk cfg env tr p c -> failsAlways cfg env p -> forall v, c <> Fulfilled v.
Proof.
  intros [Hc _] Hfail v ->. simpl in Hc. destruct Hc as (a & Hatt & Hv).
  destruct (Hfail a (attempted_budget _ _ _ _ _ Hatt)) as [e He].
  apply attemptValue_error in Hv. congruence.
Qed.

(** From every state of a run, some continuation settles [parallelCalls]. *)
Lemma run_eventually_settled env urls options schedule :
  1 <= batchSize (resolveOptions options) ->
  exists more, settled (run env urls options (schedule ++ more)).
Proof.
  intros Hb.
  destruct (eventually_settled (resolveOptions options) env urls Hb
              (measure (resolveOptions options) urls (run env urls options schedule))
              (run env urls options schedule)) as [more Hmore].
  - by apply run_Inv.
  - done.
  - exists more. by rewrite run_app.
Qed.

(** With every URL succeeding within its budget, a run never throws, and
    returns nothing but the values of the first successes, in input order. *)
Lemma run_all_succeed env urls options (att : nat -> Z) (val : nat -> json) schedule :
  1 <= batchSize (resolveOptions options) ->
  (forall p, (p < length urls)%nat ->
     succeedsAt (resolveOptions options) env p (att p) (val p)) ->
  match main (run env urls options schedule) with
  | Awaiting _ => True
  | Returned rs => rs = val <$> seq 0 (length urls)
  | Thrown _ => False
  end.
Proof.
  intros Hb Hok.
  pose proof (run_Inv env urls options schedule Hb) as [Hlen _ Hpos _ Hmain].
  unfold mainOk in Hmain.
  destruct (main (run env urls options schedule)) as [i | rs | e]; [done | |].
  - destruct Hmain as (_ & Hall & _).
    apply list_eq. intros p.
    rewrite list_lookup_fmap.
    destruct (decide (p < length urls)%nat) as [Hp | Hp].
    + rewrite lookup_seq_lt by done. simpl.
      destruct (lookup_lt_is_Some_2 (chains (run env urls options schedule)) p)
        as [c Hc]; [lia |].
      pose proof (Hpos p c Hc) as Hposp.
      destruct (posOk_succeeds _ _ _ _ _ _ _ Hposp (Hok p Hp)) as [_ Hval].
      rewrite Hall, list_lookup_fmap in Hc.
      destruct (rs !! p) as [v|]; [| done].
      simpl in Hc. injection Hc as <-. f_equal. by apply Hval.
    + rewrite lookup_seq_ge by lia. simpl.
      apply lookup_ge_None. rewrite <- Hlen in Hp.
      rewrite Hall, length_fmap in Hp. lia.
  - destruct Hmain as (_ & _ & p & e0 & Hc & _).
    pose proof (Hpos p _ Hc) as Hposp.
    assert (Hp : (p < length urls)%nat)
      by (rewrite <- Hlen; by eapply lookup_lt_Some).
    destruct (posOk_succeeds _ _ _ _ _ _ _ Hposp (Hok p Hp)) as [Hrej _].
    by apply (Hrej e0).
Qed.

(** ** Sample networks *)

(** ** C1: the result of a successful run *)

(** C1, amended. For every list of URLs and every configuration with
    batchSize >= 1: if every URL has an attempt within its retry budget
    that succeeds, the attempts before it having failed at the fetch stage
    (timeout, transport failure or non-ok status), then [parallelCalls]
    resolves with a sequence as long as [urls] whose k-th entry is the
    value decoded for the k-th URL: every run can be continued to that
    result, has reached it as soon as no attempt is in flight, and has no
    other outcome. *)
Theorem parallelCalls_resolves_in_input_order
    (env : Network) (urls : list string) (options : option Options)
    (att : nat -> Z) (val : nat -> json) :
  1 <= batchSize (resolveOptions options) ->
  (forall p, (p < length urls)%nat ->
     succeedsAt (resolveOptions options) env p (att p) (val p)) ->
  (forall schedule, exists more,
     main (run env urls options (schedule ++ more)) =
       Returned (val <$> seq 0 (length urls))) /\
  (forall schedule,
     outstanding (chains (run env urls options schedule)) = O ->
     main (run env urls options schedule) =
       Returned (val <$> seq 0 (length urls))) /\
  (forall schedule rs,
     main (run env urls options schedule) = Returned rs ->
     rs = val <$> seq 0 (length urls)) /\
  (forall schedule e, main (run env urls options schedule) <> Thrown e) /\
  length (val <$> seq 0 (length urls)) = length urls /\
  (forall k, (k < length urls)%nat ->
     (val <$> seq 0 (length urls)) !! k = Some (val k)).
Proof.
  intros Hb Hok. repeat split.
  - intros schedule.
    destruct (run_eventually_settled env urls options schedule Hb) as [more Hs].
    exists more. unfold settled in Hs.
    pose proof (run_all_succeed env urls options att val (schedule ++ more) Hb Hok)
      as Hrun.
    destruct (main (run env urls options (schedule ++ more))); [done | | done].
    by rewrite Hrun.
  - intros schedule Hz.
    pose proof (Inv_quiescent _ _ _ _ (run_Inv env urls options schedule Hb) Hz)
      as Hs.
    unfold settled in Hs.
    pose proof (run_all_succeed env urls options att val schedule Hb Hok) as Hrun.
    destruct (main (run env urls options schedule)); [done | | done].
    by rewrite Hrun.
  - intros schedule rs Hrs.
    pose proof (run_all_succeed env urls options att val schedule Hb Hok) as Hrun.
    by rewrite Hrs in Hrun.
  - intros schedule e He.
    pose proof (run_all_succeed env urls options att val schedule Hb Hok) as Hrun.
    by rewrite He in Hrun.
  - by rewrite length_fmap, length_seq.
  - intros k Hk. rewrite list_lookup_fmap, lookup_seq_lt by done. done.
Qed.

(** Three URLs in batches of two, retries = 3: the second and the third
    URL succeed at their second attempt. *)
Lemma parallelCalls_resolves_in_input_order_witness :
  (forall schedule, exists more,
     main (run flaky ["A"; "B"; "C"] (batchesOf 2) (schedule ++ more)) =
       Returned [JNum 0; JNum 1; JNum 2]) /\
  (forall schedule,
     outstanding (chains (run flaky ["A"; "B"; "C"] (batchesOf 2) schedule)) = O ->
     main (run flaky ["A"; "B"; "C"] (batchesOf 2) schedule) =
       Returned [JNum 0; JNum 1; JNum 2]) /\
  (forall schedule rs,
     main (run flaky ["A"; "B"; "C"] (batchesOf 2) schedule) = Returned rs ->
     rs = [JNum 0; JNum 1; JNum 2]) /\
  (forall schedule e,
     main (run flaky ["A"; "B"; "C"] (batchesOf 2) schedule) <> Thrown e) /\
  length [JNum 0; JNum 1; JNum 2] = 3%nat /\
  (forall k, (k < 3)%nat ->
     [JNum 0; JNum 1; JNum 2] !! k = Some (JNum (Z.of_nat k))).
Proof.
  apply (parallelCalls_resolves_in_input_order flaky ["A"; "B"; "C"] (batchesOf 2)
           (fun p => match p with O => 1 | _ => 2 end)
           (fun p => JNum (Z.of_nat p))).
  - vm_compute. discriminate.
  - intros [|[|[|p]]] Hp; simpl in Hp; try lia;
      (split; [vm_compute; split; discriminate | split; [reflexivity |]]);
      intros k Hk; [lia | |]; assert (k = 1) as -> by lia; vm_compute; eauto.
Defined.

(** C1 as stated fails for a batch size that is not positive, which no
    line of the code excludes. With no URL and batchSize = 0 nothing can
    fail to be fetched, yet [Array(NaN)] throws at line 165 and the call is
    rejected. With one URL whose first attempt succeeds and batchSize = -2
    the loop has no iteration and the call resolves with no entry. *)
Lemma parallelCalls_resolves_in_input_order_counterexample :
  (forall schedule,
     main (run allOk [] (batchesOf 0) schedule) =
       Thrown (newError "Invalid array length")) /\
  (succeedsAt (resolveOptions (batchesOf (-2))) allOk 0 1 (JNum 0) /\
   forall schedule,
     main (run allOk ["A"] (batchesOf (-2)) schedule) = Returned []).
Proof.
  split; [| split].
  - intros schedule. by rewrite run_nonpositive.
  - split; [vm_compute; split; discriminate | split; [reflexivity |]].
    intros k Hk. lia.
  - intros schedule. by rewrite run_nonpositive.
Qed.

(** ** C2 and C4: the retry count, and bodies that do not decode *)

(** The attempts made for a started URL are between 1 and the budget. *)
Lemma attempts_within_budget env urls options schedule p c :
  chains (run env urls options schedule) !! p = Some c ->
  c <> NotStarted ->
  1 <= attemptsMade (trace (run env urls options schedule)) p
    <= Z.max 1 (retries (resolveOptions options)).
Proof.
  intros Hc Hns. destruct (run_posOk env urls options schedule p c Hc) as [Hok _].
  destruct c as [|a|a|v|e]; simpl in Hok; try done.
  - pose proof (attempted_budget _ _ _ _ _ Hok) as Hb.
    destruct Hok as (_ & -> & _). done.
  - destruct Hok as [Hok _]. pose proof (attempted_budget _ _ _ _ _ Hok) as Hb.
    destruct Hok as (_ & -> & _). done.
  - destruct Hok as (a & Hok & _). pose proof (attempted_budget _ _ _ _ _ Hok) as Hb.
    destruct Hok as (_ & -> & _). done.
  - destruct Hok as (a & Hok & _). pose proof (attempted_budget _ _ _ _ _ Hok) as Hb.
    destruct Hok as (_ & -> & _). done.
Qed.

(** A URL fulfilled at its attempt [k] was attempted exactly [k] times. *)
Lemma attempts_of_fulfilled env urls options schedule p v :
  chains (run env urls options schedule) !! p = Some (Fulfilled v) ->
  attemptValue
    (env p (attemptsMade (trace (run env urls options schedule)) p)) = Some v /\
  forall k, 1 <= k < attemptsMade (trace (run env urls options schedule)) p ->
    is_Some (caughtError (env p k)).
Proof.
  intros Hc. destruct (run_posOk env urls options schedule p _ Hc) as [Hok _].
  simpl in Hok. destruct Hok as (a & (_ & -> & _ & Hk) & Hv). done.
Qed.

(** A URL rejected with an error that the [catch] clause received was
    attempted exactly [retries] times (once when [retries < 1]); otherwise
    the error is that of a body that did not decode. *)
Lemma attempts_of_rejected env urls options schedule p e :
  chains (run env urls options schedule) !! p = Some (Rejected e) ->
  attemptError
    (env p (attemptsMade (trace (run env urls options schedule)) p)) = Some e /\
  (is_Some (caughtError
     (env p (attemptsMade (trace (run env urls options schedule)) p))) ->
   attemptsMade (trace (run env urls options schedule)) p =
     Z.max 1 (retries (resolveOptions options))) /\
  forall k, 1 <= k < attemptsMade (trace (run env urls options schedule)) p ->
    is_Some (caughtError (env p k)).
Proof.
  intros Hc. destruct (run_posOk env urls options schedule p _ Hc) as [Hok _].
  cbn [chainOk] in Hok. destruct Hok as (a & Hatt & He & Hlast).
  pose proof (attempted_budget _ _ _ _ _ Hatt) as Hb. unfold budget in Hb.
  destruct Hatt as (_ & -> & _ & Hk).
  split; [done |]. split; [| done].
  intros Hsome. specialize (Hlast Hsome). lia.
Qed.

(** C2, at the input where the code departs from it: with retries = 3, a
    URL whose every attempt fails to decode is attempted once, not three
    times, before its failure reaches the caller. *)
Lemma undecodable_url_attempted_once :
  retries (resolveOptions None) = 3 /\
  failsAlways (resolveOptions None) alwaysBadJson 0 /\
  chains (run alwaysBadJson ["A"] None [0; 0]%nat) = [Rejected syntaxError] /\
  attemptsMade (trace (run alwaysBadJson ["A"] None [0; 0]%nat)) 0 = 1 /\
  main (run alwaysBadJson ["A"] None [0; 0]%nat) =
    Thrown (newError (err_message syntaxError)).
Proof.
  split; [done |]. split; [| by vm_compute].
  intros k _. unfold alwaysBadJson. simpl. eauto.
Qed.

(** C4, at the input where the code departs from it: the first attempt is
    answered with status 200 and a body that is no JSON, a second attempt
    would succeed and attempt 1 is below retries = 3; the chain is rejected
    from outside the [try] block and no second fetch is issued, on any
    continuation of the run. *)
Lemma decode_failure_not_retried :
  1 < retries (resolveOptions None) /\
  attemptValue (badJsonOnce 0%nat 2) = Some (JStr "resA") /\
  trace (run badJsonOnce ["A"] None [0; 0]%nat) =
    [EIteration 0 ["A"]; ESetTimeout 0 1 5000; EFetch 0 "A" 1;
     EClearTimeout 0 1; EJson 0 1; EClearTimeout 0 1;
     ELogError (err_message syntaxError)] /\
  chains (run badJsonOnce ["A"] None [0; 0]%nat) = [Rejected syntaxError] /\
  main (run badJsonOnce ["A"] None [0; 0]%nat) =
    Thrown (newError (err_message syntaxError)) /\
  (forall more,
     run badJsonOnce ["A"] None ([0; 0]%nat ++ more) =
       run badJsonOnce ["A"] None [0; 0]%nat).
Proof.
  repeat split; try by vm_compute.
  intros more. rewrite run_app. apply runFrom_idle.
  intros q c. vm_compute. destruct q as [|q]; [by intros [= <-] | done].
Qed.

(** ** C3: fail fast *)

Lemma Frontier_before cfg urls s i p :
  Frontier cfg urls s i -> (p < i * batchWidth cfg)%nat ->
  (p < length (chains s))%nat ->
  exists v, chains s !! p = Some (Fulfilled v).
Proof.
  intros [_ Hdone _ _ _] Hp Hlen.
  destruct (lookup_lt_is_Some_2 (chains s) p Hlen) as [c Hc].
  assert (Ht : take (i * batchWidth cfg) (chains s) !! p = Some c)
    by (by rewrite lookup_take_lt).
  rewrite Hdone, list_lookup_fmap in Ht.
  destruct (results s !! p) as [v|]; [| done].
  simpl in Ht. injection Ht as <-. eauto.
Qed.

(** The batch a run has reached, whether [parallelCalls] still awaits it
    or has thrown in it. *)
Lemma Inv_frontier cfg env urls s :
  Inv cfg env urls s ->
  (exists rs, main s = Returned rs /\ chains s = Fulfilled <$> rs) \/
  (exists i, Frontier cfg urls s i).
Proof.
  intros [_ _ _ _ Hmain]. unfold mainOk in Hmain.
  destruct (main s) as [i | rs | e].
  - right. exists i. by destruct Hmain.
  - left. exists rs. by destruct Hmain as (_ & ? & _).
  - right. destruct Hmain as (i & ? & _). eauto.
Qed.

(** C3. If some URL of batch [i] fails every permitted attempt, then
    [parallelCalls] fails: every run can be continued to a rejection, is
    rejected as soon as no attempt is in flight, and never returns a
    result, partial or not; and no fetch is ever issued for a URL of a
    batch after [i], although the batches before [i] were fulfilled. *)
Theorem parallelCalls_fails_fast
    (env : Network) (urls : list string) (options : option Options)
    (i p : nat) :
  (p < length urls)%nat ->
  Z.of_nat i * batchSize (resolveOptions options) <= Z.of_nat p
    < (Z.of_nat i + 1) * batchSize (resolveOptions options) ->
  failsAlways (resolveOptions options) env p ->
  (forall schedule, exists more e,
     main (run env urls options (schedule ++ more)) = Thrown e) /\
  (forall schedule,
     outstanding (chains (run env urls options schedule)) = O ->
     exists e, main (run env urls options schedule) = Thrown e) /\
  (forall schedule rs, main (run env urls options schedule) <> Returned rs) /\
  (forall schedule q url a,
     EFetch q url a ∈ trace (run env urls options schedule) ->
     Z.of_nat q < (Z.of_nat i + 1) * batchSize (resolveOptions options)).
Proof.
  intros Hp Hin Hfail.
  assert (Hb : 1 <= batchSize (resolveOptions options)) by nia.
  assert (Hnever : forall schedule v,
            chains (run env urls options schedule) !! p <> Some (Fulfilled v)).
  { intros schedule v Hc.
    by apply (posOk_fails _ _ _ _ _ (run_posOk env urls options schedule p _ Hc) Hfail v). }
  assert (Hnoret : forall schedule rs,
            main (run env urls options schedule) <> Returned rs).
  { intros schedule rs Hrs.
    pose proof (run_Inv env urls options schedule Hb) as [Hlen _ _ _ Hmain].
    unfold mainOk in Hmain. rewrite Hrs in Hmain. destruct Hmain as (_ & Hall & _).
    destruct (lookup_lt_is_Some_2 (chains (run env urls options schedule)) p)
      as [c Hc]; [lia |].
    pose proof Hc as Hc'. rewrite Hall, list_lookup_fmap in Hc'.
    destruct (rs !! p) as [v|]; [| done]. simpl in Hc'. injection Hc' as <-.
    by apply (Hnever schedule v). }
  split; [| split; [| split; [done |]]].
  - intros schedule.
    destruct (run_eventually_settled env urls options schedule Hb) as [more Hs].
    exists more. unfold settled in Hs.
    destruct (main (run env urls options (schedule ++ more))) as [j | rs | e] eqn:Hm.
    + done.
    + by destruct (Hnoret _ _ Hm).
    + eauto.
  - intros schedule Hz.
    pose proof (Inv_quiescent _ _ _ _ (run_Inv env urls options schedule Hb) Hz)
      as Hs.
    unfold settled in Hs.
    destruct (main (run env urls options schedule)) as [j | rs | e] eqn:Hm.
    + done.
    + by destruct (Hnoret _ _ Hm).
    + eauto.
  - intros schedule q url a Hq.
    pose proof (run_Inv env urls options schedule Hb) as HI.
    pose proof HI as [Hlen _ Hpos Hbey _].
    destruct (Z.lt_ge_cases (Z.of_nat q)
                ((Z.of_nat i + 1) * batchSize (resolveOptions options)))
      as [Hlt | Hge]; [done | exfalso].
    assert (Hzero : count (isFetch q) (trace (run env urls options schedule)) = O).
    { destruct (decide (q < length urls)%nat) as [Hql | Hql].
      - destruct (lookup_lt_is_Some_2 (chains (run env urls options schedule)) q)
          as [c Hc]; [lia |].
        destruct (Inv_frontier _ _ _ _ HI) as [(rs & Hrs & _) | (j & Hfr)].
        { by destruct (Hnoret _ _ Hrs). }
        assert (Hji : (j <= i)%nat).
        { destruct (decide (j <= i)%nat) as [? | Hgt]; [done | exfalso].
          destruct (Frontier_before _ _ _ j p Hfr) as [v Hv].
          - unfold batchWidth. nia.
          - lia.
          - by apply (Hnever schedule v). }
        destruct Hfr as [_ _ _ Hrest _].
        rewrite (Hrest q c) in Hc; [| unfold batchWidth; nia | done].
        destruct (Hpos q _ Hc) as [H0 _]. simpl in H0.
        unfold attemptsMade in H0. lia.
      - apply (count_quiet q); [apply isFetch_local | apply Hbey; lia]. }
    pose proof (count_zero_not_elem _ _ _ Hzero Hq) as Hf.
    simpl in Hf. by rewrite bool_decide_eq_true_2 in Hf.
Qed.

(** Three URLs in batches of one, retries = 2: B, alone in batch 1, fails
    both attempts; C, in batch 2, is never fetched. *)
Lemma parallelCalls_fails_fast_witness :
  (forall schedule, exists more e,
     main (run secondFails ["A"; "B"; "C"]
             (Some (mkOptions None (Some 2) (Some 1))) (schedule ++ more)) =
       Thrown e) /\
  (forall schedule,
     outstanding
       (chains (run secondFails ["A"; "B"; "C"]
                  (Some (mkOptions None (Some 2) (Some 1))) schedule)) = O ->
     exists e,
       main (run secondFails ["A"; "B"; "C"]
               (Some (mkOptions None (Some 2) (Some 1))) schedule) = Thrown e) /\
  (forall schedule rs,
     main (run secondFails ["A"; "B"; "C"]
             (Some (mkOptions None (Some 2) (Some 1))) schedule) <> Returned rs) /\
  (forall schedule q url a,
     EFetch q url a ∈
       trace (run secondFails ["A"; "B"; "C"]
                (Some (mkOptions None (Some 2) (Some 1))) schedule) ->
     Z.of_nat q < 2).
Proof.
  apply (parallelCalls_fails_fast secondFails ["A"; "B"; "C"]
           (Some (mkOptions None (Some 2) (Some 1))) 1 1).
  - simpl. lia.
  - cbn. lia.
  - intros k _. simpl. eauto.
Defined.

(** ** C5: the error a failing run reports *)

(** C5, amended. The error a failing run hands to the caller is a fresh
    [Error] that holds a message and nothing else: "Invalid array length"
    when the batch size is not positive, and otherwise the message of the
    error that ended the last attempt of a URL whose chain was rejected.
    It names neither that URL nor the number of attempts nor the kind of
    the failure; the accumulated results are no part of it. *)
Theorem parallelCalls_error_is_a_message
    (env : Network) (urls : list string) (options : option Options)
    (schedule : list nat) (e : JsError) :
  main (run env urls options schedule) = Thrown e ->
  err_name e = "Error" /\
  ((batchSize (resolveOptions options) <= 0 /\
    e = newError "Invalid array length" /\
    trace (run env urls options schedule) = [ELogError "Invalid array length"]) \/
   (1 <= batchSize (resolveOptions options) /\
    exists p url e0,
      urls !! p = Some url /\
      chains (run env urls options schedule) !! p = Some (Rejected e0) /\
      attemptError
        (env p (attemptsMade (trace (run env urls options schedule)) p)) = Some e0 /\
      e = newError (err_message e0))).
Proof.
  intros He.
  destruct (Z.le_gt_cases 1 (batchSize (resolveOptions options))) as [Hb | Hb].
  - pose proof (run_Inv env urls options schedule Hb) as [Hlen _ _ _ Hmain].
    unfold mainOk in Hmain. rewrite He in Hmain.
    destruct Hmain as (i & _ & p & e0 & Hc & ->).
    split; [done |]. right. split; [done |].
    destruct (lookup_lt_is_Some_2 urls p) as [url Hurl].
    { rewrite <- Hlen. by eapply lookup_lt_Some. }
    exists p, url, e0. repeat split; try done.
    by apply (attempts_of_rejected env urls options schedule p e0).
  - rewrite run_nonpositive in * by lia.
    destruct (parallelCalls_nonpositive urls options ltac:(lia))
      as (_ & _ & [[Hm Ht] | [Hm Ht]]); rewrite Hm in He; [| done].
    injection He as <-. split; [done |]. left. repeat split; [lia | done].
Qed.

(** A run that fails at its only URL after both of its attempts. *)
Lemma parallelCalls_error_is_a_message_witness :
  err_name (newError "fetch failed") = "Error" /\
  ((batchSize (resolveOptions (Some (mkOptions None (Some 2) None))) <= 0 /\
    newError "fetch failed" = newError "Invalid array length" /\
    trace (run (fun _ _ => Rejects fetchFailed) ["B"]
             (Some (mkOptions None (Some 2) None)) [0; 0]%nat) =
      [ELogError "Invalid array length"]) \/
   (1 <= batchSize (resolveOptions (Some (mkOptions None (Some 2) None))) /\
    exists p url e0,
      ["B"] !! p = Some url /\
      chains (run (fun _ _ => Rejects fetchFailed) ["B"]
                (Some (mkOptions None (Some 2) None)) [0; 0]%nat) !! p =
        Some (Rejected e0) /\
      attemptError
        ((fun _ _ => Rejects fetchFailed) p
           (attemptsMade
              (trace (run (fun _ _ => Rejects fetchFailed) ["B"]
                        (Some (mkOptions None (Some 2) None)) [0; 0]%nat)) p)) =
        Some e0 /\
      newError "fetch failed" = newError (err_message e0))).
Proof.
  apply (parallelCalls_error_is_a_message (fun _ _ => Rejects fetchFailed) ["B"]
           (Some (mkOptions None (Some 2) None)) [0; 0]%nat
           (newError "fetch failed")).
  reflexivity.
Defined.

(** C5 as stated fails: two failing runs that differ in the failing URL
    and in the number of attempts made for it (one for A with retries = 1,
    two for B with retries = 2) hand the caller the same error value, so
    the value carries neither; and the name of the underlying error
    (TypeError here) is replaced by "Error". *)
Lemma parallelCalls_error_is_a_message_counterexample :
  main (run (fun _ _ => Rejects fetchFailed) ["A"]
          (Some (mkOptions None (Some 1) None)) [0]%nat) =
    Thrown (newError "fetch failed") /\
  attemptsMade
    (trace (run (fun _ _ => Rejects fetchFailed) ["A"]
              (Some (mkOptions None (Some 1) None)) [0]%nat)) 0 = 1 /\
  main (run (fun _ _ => Rejects fetchFailed) ["B"]
          (Some (mkOptions None (Some 2) None)) [0; 0]%nat) =
    Thrown (newError "fetch failed") /\
  attemptsMade
    (trace (run (fun _ _ => Rejects fetchFailed) ["B"]
              (Some (mkOptions None (Some 2) None)) [0; 0]%nat)) 0 = 2 /\
  err_name fetchFailed = "TypeError" /\
  err_name (newError "fetch failed") = "Error".
Proof. repeat split; by vm_compute. Qed.

(** ** C6: the options *)

(** With a positive batch size and a URL, the call starts fetching at
    once, whatever [timeout] and [retries] are: the first timer is armed
    with [timeout] as supplied. *)
Lemma parallelCalls_starts url rest options :
  1 <= batchSize (resolveOptions options) ->
  exists effs,
    main (parallelCalls (url :: rest) options) = Awaiting 0 /\
    trace (parallelCalls (url :: rest) options) =
      EIteration 0 (slice (url :: rest) 0 (batchSize (resolveOptions options)))
      :: ESetTimeout 0 1 (timeout (resolveOptions options))
      :: EFetch 0 url 1 :: effs.
Proof.
  intros Hb. unfold parallelCalls. rewrite newArray_positive by done.
  destruct (batchCount_spec (length (url :: rest))
              (batchSize (resolveOptions options)) Hb) as [Hcover _].
  destruct (batchCount (length (url :: rest)) (batchSize (resolveOptions options)))
    as [|n]; [simpl in Hcover; lia |].
  cbn [forLoop main results chains trace iterations].
  replace (Z.of_nat 0 * batchSize (resolveOptions options)) with 0 by lia.
  replace ((Z.of_nat 0 + 1) * batchSize (resolveOptions options))
    with (batchSize (resolveOptions options)) by lia.
  assert (Hslice : exists us,
            slice (url :: rest) 0 (batchSize (resolveOptions options)) = url :: us).
  { rewrite slice_nonneg by lia.
    destruct (Z.to_nat (batchSize (resolveOptions options)) - Z.to_nat 0)%nat
      as [|w] eqn:Hw; [lia |].
    simpl. eauto. }
  destruct Hslice as [us Hus]. rewrite Hus.
  rewrite relIndex_nonneg by lia.
  replace (Nat.min (Z.to_nat 0) (length (url :: rest))) with O by (simpl; lia).
  cbn [startBatch fetchWithTimeout].
  destruct (startBatch (resolveOptions options) 1 us
              (<[0%nat:=Fetching 1]> (replicate (length (url :: rest)) NotStarted)))
    as [cs effs].
  exists effs. done.
Qed.

(** C6, amended. Nothing validates the options. A field the caller omits
    takes its default (timeout = 5000, retries = 3, batchSize = 5; the
    option is named [timeout]), a field the caller supplies is used as it
    is: with a positive batch size the first timer is armed with the
    supplied [timeout] whatever its sign, and whatever [retries] is. *)
Theorem options_defaulted_not_validated
    (t r b : option Z) (env : Network) (urls : list string) (url : string) :
  resolveOptions None = mkConfig 5000 3 5 /\
  resolveOptions (Some (mkOptions t r b)) =
    mkConfig (default 5000 t) (default 3 r) (default 5 b) /\
  (forall schedule,
     run env urls None schedule =
       run env urls (Some (mkOptions (Some 5000) (Some 3) (Some 5))) schedule) /\
  (1 <= default 5 b ->
   exists effs,
     main (parallelCalls (url :: urls) (Some (mkOptions t r b))) = Awaiting 0 /\
     trace (parallelCalls (url :: urls) (Some (mkOptions t r b))) =
       EIteration 0 (slice (url :: urls) 0 (default 5 b))
       :: ESetTimeout 0 1 (default 5000 t) :: EFetch 0 url 1 :: effs).
Proof.
  repeat split.
  intros Hb. by apply (parallelCalls_starts url urls (Some (mkOptions t r b))).
Qed.

(** A negative timeout and retries = 0 are accepted and used. *)
Lemma options_defaulted_not_validated_witness :
  resolveOptions None = mkConfig 5000 3 5 /\
  resolveOptions (Some (mkOptions (Some (-1)) (Some 0) None)) =
    mkConfig (-1) 0 5 /\
  (forall schedule,
     run allOk ["B"] None schedule =
       run allOk ["B"] (Some (mkOptions (Some 5000) (Some 3) (Some 5))) schedule) /\
  (1 <= 5 ->
   exists effs,
     main (parallelCalls ["A"; "B"] (Some (mkOptions (Some (-1)) (Some 0) None))) =
       Awaiting 0 /\
     trace (parallelCalls ["A"; "B"] (Some (mkOptions (Some (-1)) (Some 0) None))) =
       EIteration 0 (slice ["A"; "B"] 0 5)
       :: ESetTimeout 0 1 (-1) :: EFetch 0 "A" 1 :: effs).
Proof.
  exact (options_defaulted_not_validated (Some (-1)) (Some 0) None allOk ["B"] "A").
Defined.

(** C6 as stated fails: with timeout = -1 and retries = 0 the call is not
    refused; it arms a timer of -1 ms, fetches, and resolves. *)
Lemma options_defaulted_not_validated_counterexample :
  trace (parallelCalls ["A"] (Some (mkOptions (Some (-1)) (Some 0) (Some 1)))) =
    [EIteration 0 ["A"]; ESetTimeout 0 1 (-1); EFetch 0 "A" 1] /\
  main (run allOk ["A"] (Some (mkOptions (Some (-1)) (Some 0) (Some 1)))
          [0; 0]%nat) = Returned [JNum 0].
Proof. split; by vm_compute. Qed.

(** ** C7: the batches *)

(** The batches a run has entered are the first slices, in order. *)
Lemma run_batches env urls options schedule :
  1 <= batchSize (resolveOptions options) ->
  exists k,
    (k <= batchTotal (resolveOptions options) urls)%nat /\
    batchesRun (trace (run env urls options schedule)) =
      allBatches (resolveOptions options) urls k /\
    (forall rs, main (run env urls options schedule) = Returned rs ->
                k = batchTotal (resolveOptions options) urls).
Proof.
  intros Hb.
  pose proof (run_Inv env urls options schedule Hb) as [_ _ _ _ Hmain].
  unfold mainOk in Hmain.
  destruct (main (run env urls options schedule)) as [i | rs | e].
  - destruct Hmain as ([Hi _ _ _ Hruns] & _).
    exists (S i). repeat split; [lia | done | done].
  - destruct Hmain as (_ & _ & Hruns).
    exists (batchTotal (resolveOptions options) urls). done.
  - destruct Hmain as (i & [Hi _ _ _ Hruns] & _).
    exists (S i). repeat split; [lia | done | done].
Qed.

(** C7. For a positive batchSize the loop has ceil(urls.length /
    batchSize) iterations; iteration [i] works on the slice
    [urls[i*batchSize : (i+1)*batchSize]], which is not empty and holds at
    most batchSize URLs; at every point of every run the iterations
    entered so far are iterations 0, 1, ... in this order with these
    slices, all of them once the call has returned; and when every URL
    succeeds within its budget every run can be continued until the call
    returns the values in input order after exactly that many batches. *)
Theorem parallelCalls_batches
    (env : Network) (urls : list string) (options : option Options) :
  1 <= batchSize (resolveOptions options) ->
  newArray (mathCeilDiv (Z.of_nat (length urls)) (batchSize (resolveOptions options)))
    = Some (batchCount (length urls) (batchSize (resolveOptions options))) /\
  Z.of_nat (batchCount (length urls) (batchSize (resolveOptions options))) =
    (Z.of_nat (length urls) + batchSize (resolveOptions options) - 1)
      / batchSize (resolveOptions options) /\
  (forall i,
     slice urls (Z.of_nat i * batchSize (resolveOptions options))
       ((Z.of_nat i + 1) * batchSize (resolveOptions options)) =
     take (Z.to_nat (batchSize (resolveOptions options)))
       (drop (i * Z.to_nat (batchSize (resolveOptions options))) urls)) /\
  (forall i,
     (i < batchCount (length urls) (batchSize (resolveOptions options)))%nat ->
     (1 <= length (slice urls (Z.of_nat i * batchSize (resolveOptions options))
                     ((Z.of_nat i + 1) * batchSize (resolveOptions options)))
        <= Z.to_nat (batchSize (resolveOptions options)))%nat) /\
  (forall schedule, exists k,
     (k <= batchCount (length urls) (batchSize (resolveOptions options)))%nat /\
     batchesRun (trace (run env urls options schedule)) =
       (fun i => (i, slice urls (Z.of_nat i * batchSize (resolveOptions options))
                       ((Z.of_nat i + 1) * batchSize (resolveOptions options))))
         <$> seq 0 k /\
     (forall rs, main (run env urls options schedule) = Returned rs ->
        k = batchCount (length urls) (batchSize (resolveOptions options)))) /\
  (forall (att : nat -> Z) (val : nat -> json),
     (forall p, (p < length urls)%nat ->
        succeedsAt (resolveOptions options) env p (att p) (val p)) ->
     forall schedule, exists more,
       main (run env urls options (schedule ++ more)) =
         Returned (val <$> seq 0 (length urls)) /\
       batchesRun (trace (run env urls options (schedule ++ more))) =
         (fun i => (i, slice urls (Z.of_nat i * batchSize (resolveOptions options))
                         ((Z.of_nat i + 1) * batchSize (resolveOptions options))))
           <$> seq 0 (batchCount (length urls) (batchSize (resolveOptions options)))).
Proof.
  intros Hb.
  assert (Hall : forall k,
    allBatches (resolveOptions options) urls k =
      (fun i => (i, slice urls (Z.of_nat i * batchSize (resolveOptions options))
                      ((Z.of_nat i + 1) * batchSize (resolveOptions options))))
        <$> seq 0 k).
  { intros k. unfold allBatches. apply list_fmap_ext. intros _ i _.
    by rewrite slice_batch. }
  split; [by apply newArray_positive |].
  split; [by apply batchCount_ceil |].
  split; [intros i; by apply slice_batch |].
  split; [| split].
  - intros i Hi. rewrite slice_batch by done.
    pose proof (theBatch_length (resolveOptions options) urls i) as Hl.
    unfold theBatch, batchWidth in Hl. rewrite Hl.
    pose proof (batchTotal_lt (resolveOptions options) urls Hb i Hi) as Hlt.
    unfold batchWidth in Hlt. lia.
  - intros schedule.
    destruct (run_batches env urls options schedule Hb) as (k & Hk & Hruns & Hret).
    exists k. rewrite <- Hall. done.
  - intros att val Hok schedule.
    destruct (run_eventually_settled env urls options schedule Hb) as [more Hs].
    exists more. unfold settled in Hs.
    pose proof (run_all_succeed env urls options att val (schedule ++ more) Hb Hok)
      as Hrun.
    destruct (run_batches env urls options (schedule ++ more) Hb)
      as (k & Hk & Hruns & Hret).
    destruct (main (run env urls options (schedule ++ more))) as [i | rs | e];
      [done | | done].
    subst rs. split; [done |].
    rewrite Hruns, (Hret _ eq_refl). apply Hall.
Qed.

(** Scenario A of the specification: five URLs in batches of two run as
    the batches [A,B], [C,D], [E] and give [resA, ..., resE], here on a
    schedule where B answers before A and D before C; and every schedule
    can be continued to that result. *)
Lemma parallelCalls_batches_witness :
  newArray (mathCeilDiv 5 2) = Some 3%nat /\
  batchesRun
    (trace (run scenarioA ["A"; "B"; "C"; "D"; "E"] (batchesOf 2)
              [1; 1; 0; 0; 3; 2; 3; 2; 4; 4]%nat)) =
    [(0, ["A"; "B"]); (1, ["C"; "D"]); (2, ["E"])]%nat /\
  main (run scenarioA ["A"; "B"; "C"; "D"; "E"] (batchesOf 2)
          [1; 1; 0; 0; 3; 2; 3; 2; 4; 4]%nat) =
    Returned [JStr "resA"; JStr "resB"; JStr "resC"; JStr "resD"; JStr "resE"] /\
  (forall schedule, exists more,
     main (run scenarioA ["A"; "B"; "C"; "D"; "E"] (batchesOf 2)
             (schedule ++ more)) =
       Returned [JStr "resA"; JStr "resB"; JStr "resC"; JStr "resD"; JStr "resE"] /\
     batchesRun
       (trace (run scenarioA ["A"; "B"; "C"; "D"; "E"] (batchesOf 2)
                 (schedule ++ more))) =
       [(0, ["A"; "B"]); (1, ["C"; "D"]); (2, ["E"])]%nat).
Proof.
  destruct (parallelCalls_batches scenarioA ["A"; "B"; "C"; "D"; "E"] (batchesOf 2))
    as (Hcount & _ & _ & _ & _ & Hlive).
  - vm_compute. discriminate.
  - split; [exact Hcount |]. split; [by vm_compute |]. split; [by vm_compute |].
    apply (Hlive (fun _ => 1)
             (fun p => JStr (nth p ["resA"; "resB"; "resC"; "resD"; "resE"] ""%string))).
    intros p Hp. split; [vm_compute; split; discriminate |].
    split; [reflexivity |]. intros k Hk. lia.
Defined.

(** ** C8: the timer of an attempt *)

(** C8, amended. In every run, for the chain of every URL and every
    attempt number [a]: a timer is armed once with each fetch issued; while
    the fetch of attempt [a] is in flight its timer is armed, neither
    cleared nor fired; once the attempt has left line 143 its timer has
    been released exactly once and is not armed any more, in particular
    while the body is read: [controller.abort()] ran once if the timer
    fired first and never otherwise, and [clearTimeout] was called on the
    timer once if the fetch was rejected or timed out and twice (lines 144
    and 157, the second call finding the timer released) if it was
    fulfilled, whether the status, the decoding or nothing failed
    afterwards.  When the timer of attempt [a] fires first, the attempt
    fails with the abort reason of the platform (the code makes no error
    of its own), and is retried when [a < retries]. *)
Theorem attempt_timer_discipline
    (env : Network) (urls : list string) (options : option Options)
    (schedule : list nat) (p : nat) (c : Chain) (a : Z) :
  chains (run env urls options schedule) !! p = Some c ->
  count (isSetTimeout p a) (trace (run env urls options schedule)) =
    count (isFetchAt p a) (trace (run env urls options schedule)) /\
  count (isSetTimeout p a) (trace (run env urls options schedule)) =
    (if bool_decide
          (1 <= a <= attemptsMade (trace (run env urls options schedule)) p)
     then 1%nat else O) /\
  (c = Fetching a ->
   timerAfter p a (trace (run env urls options schedule)) = (true, O) /\
   count (isClearTimeout p a) (trace (run env urls options schedule)) = O /\
   count (isAbort p a) (trace (run env urls options schedule)) = O) /\
  (1 <= a <= attemptsMade (trace (run env urls options schedule)) p ->
   c <> Fetching a ->
   timerAfter p a (trace (run env urls options schedule)) = (false, 1%nat) /\
   count (isClearTimeout p a) (trace (run env urls options schedule)) =
     clearsOf (env p a) /\
   count (isAbort p a) (trace (run env urls options schedule)) =
     abortsOf (env p a)) /\
  (forall url reason, env p a = TimesOut reason ->
   settle (resolveOptions options) env p url (Fetching a) =
     if a <? retries (resolveOptions options)
     then (Fetching (a + 1),
           [EAbort p a; ELogRetry (retryText url a);
            ESetTimeout p (a + 1) (timeout (resolveOptions options));
            EFetch p url (a + 1); EClearTimeout p a])
     else (Rejected reason, [EAbort p a; EClearTimeout p a])).
Proof.
  intros Hc.
  destruct (run_posOk env urls options schedule p c Hc) as [Hok Ht].
  specialize (Ht a). cbn zeta in Ht.
  destruct Ht as (Ht1 & Ht2 & Ht3 & Ht4 & Ht5).
  split; [by rewrite Ht1, Ht2 |]. split; [done |]. split; [| split].
  - intros ->. rewrite Ht3, Ht4, Ht5. cbn [chainOk] in Hok.
    destruct Hok as (Ha & Hmade & _).
    rewrite (bool_decide_eq_true_2 (1 <= a <= _)) by lia. simpl.
    by rewrite (bool_decide_eq_true_2 (a = a)) by done.
  - intros Hmade Hne. rewrite Ht3, Ht4, Ht5.
    rewrite (bool_decide_eq_true_2 _ Hmade).
    assert (inFlight c a = false) as ->.
    { destruct c; simpl; try done. apply bool_decide_eq_false_2. congruence. }
    done.
  - intros url reason Henv. cbn [settle]. rewrite Henv.
    unfold fetchSettled, catchClause, fetchWithTimeout.
    by destruct (a <? retries (resolveOptions options)).
Qed.

(** In the run of [flaky], the first attempt for C (position 2) timed
    out: its timer fired, which released it, and was cleared once
    afterwards, while the second attempt is in flight. *)
Lemma attempt_timer_discipline_witness :
  count (isSetTimeout 2 1)
    (trace (run flaky ["A"; "B"; "C"] (batchesOf 2) [0; 0; 1; 1; 1; 2]%nat)) = 1%nat /\
  timerAfter 2 1
    (trace (run flaky ["A"; "B"; "C"] (batchesOf 2) [0; 0; 1; 1; 1; 2]%nat)) =
    (false, 1%nat) /\
  count (isClearTimeout 2 1)
    (trace (run flaky ["A"; "B"; "C"] (batchesOf 2) [0; 0; 1; 1; 1; 2]%nat)) = 1%nat /\
  count (isAbort 2 1)
    (trace (run flaky ["A"; "B"; "C"] (batchesOf 2) [0; 0; 1; 1; 1; 2]%nat)) = 1%nat /\
  settle (resolveOptions (batchesOf 2)) flaky 2 "C" (Fetching 1) =
    (Fetching 2,
     [EAbort 2 1; ELogRetry "Retrying C, attempt 2"; ESetTimeout 2 2 5000;
      EFetch 2 "C" 2; EClearTimeout 2 1]).
Proof.
  destruct (attempt_timer_discipline flaky ["A"; "B"; "C"] (batchesOf 2)
              [0; 0; 1; 1; 1; 2]%nat 2 (Fetching 2) 1)
    as (_ & Hset & _ & Hover & Hfire).
  - vm_compute. reflexivity.
  - destruct Hover as (Htimer & Hclear & Habort);
      [vm_compute; split; discriminate | discriminate |].
    split; [exact Hset |]. split; [exact Htimer |].
    split; [exact Hclear |]. split; [exact Habort |].
    exact (Hfire "C"%string abortError eq_refl).
Defined.

(** C8 as stated fails: an attempt that times out fails with the
    rejection of the aborted fetch, whose message is the platform's and
    not "request timed out"; no line of the code makes such an error, and
    the caller is handed the platform's message. *)
Lemma attempt_timer_discipline_counterexample :
  trace (run alwaysTimesOut ["A"] (Some (mkOptions None (Some 1) None)) [0]%nat) =
    [EIteration 0 ["A"]; ESetTimeout 0 1 5000; EFetch 0 "A" 1;
     EAbort 0 1; EClearTimeout 0 1;
     ELogError "This operation was aborted"] /\
  chains (run alwaysTimesOut ["A"] (Some (mkOptions None (Some 1) None)) [0]%nat) =
    [Rejected abortError] /\
  main (run alwaysTimesOut ["A"] (Some (mkOptions None (Some 1) None)) [0]%nat) =
    Thrown (newError "This operation was aborted") /\
  err_message abortError <> "request timed out"%string.
Proof. repeat split; by vm_compute. Qed.

(** ** C9: the attempts in flight *)

(** C9. At every point of every run at most batchSize attempts are in
    flight (none at all when batchSize is not positive); a URL of a later
    batch is started only when every URL of the batches before it is
    fulfilled; and while an attempt of a URL is in flight, the fetches
    issued for that URL are that attempt and the attempts before it, each
    of which has failed and had its timer cleared. *)
Theorem parallelCalls_bounded_concurrency
    (env : Network) (urls : list string) (options : option Options)
    (schedule : list nat) :
  Z.of_nat (outstanding (chains (run env urls options schedule)))
    <= Z.max 0 (batchSize (resolveOptions options)) /\
  (forall i p q c,
     (p < length urls)%nat ->
     Z.of_nat i * batchSize (resolveOptions options) <= Z.of_nat p
       < (Z.of_nat i + 1) * batchSize (resolveOptions options) ->
     (Z.of_nat i + 1) * batchSize (resolveOptions options) <= Z.of_nat q ->
     chains (run env urls options schedule) !! q = Some c ->
     c <> NotStarted ->
     exists v, chains (run env urls options schedule) !! p = Some (Fulfilled v)) /\
  (forall p c a,
     chains (run env urls options schedule) !! p = Some c ->
     c = Fetching a \/ c = ReadingBody a ->
     attemptsMade (trace (run env urls options schedule)) p = a /\
     forall k, 1 <= k < a ->
       is_Some (caughtError (env p k)) /\
       (1 <= count (isClearTimeout p k) (trace (run env urls options schedule)))%nat).
Proof.
  split; [| split].
  - destruct (Z.le_gt_cases 1 (batchSize (resolveOptions options))) as [Hb | Hb].
    + pose proof (run_Inv env urls options schedule Hb) as HI.
      destruct (Inv_frontier _ _ _ _ HI) as [(rs & _ & Hall) | (j & Hfr)].
      * rewrite Hall, outstanding_zero; [lia |].
        intros j c. rewrite list_lookup_fmap.
        destruct (rs !! j); by intros [= <-].
      * pose proof (outstanding_Frontier _ _ _ j Hfr) as Hle.
        unfold batchWidth in Hle. lia.
    + rewrite run_nonpositive by lia.
      destruct (parallelCalls_nonpositive urls options ltac:(lia)) as (-> & _).
      rewrite outstanding_zero; [lia |].
      intros j c Hc. by apply lookup_replicate_1 in Hc as [-> _].
  - intros i p q c Hp Hin Hq Hc Hns.
    assert (Hb : 1 <= batchSize (resolveOptions options)) by nia.
    pose proof (run_Inv env urls options schedule Hb) as HI.
    pose proof HI as [Hlen _ _ _ _].
    destruct (Inv_frontier _ _ _ _ HI) as [(rs & _ & Hall) | (j & Hfr)].
    + rewrite Hall, list_lookup_fmap.
      destruct (rs !! p) as [v|] eqn:Hv; [by exists v |].
      apply lookup_ge_None in Hv.
      rewrite Hall, length_fmap in Hlen. lia.
    + apply (Frontier_before _ _ _ j p Hfr); [| lia].
      destruct Hfr as [_ _ _ Hrest _].
      destruct (decide (p < j * batchWidth (resolveOptions options))%nat)
        as [? | Hge]; [done | exfalso].
      apply Hns, (Hrest q c); [| done].
      assert (Hw : Z.of_nat (batchWidth (resolveOptions options)) =
                   batchSize (resolveOptions options))
        by (unfold batchWidth; lia).
      rewrite <- Hw in *.
      assert (Hji : (j <= i)%nat) by nia.
      nia.
  - intros p c a Hc Hshape.
    destruct (run_posOk env urls options schedule p c Hc) as [Hok Ht].
    assert (Hatt : attempted (resolveOptions options) env
                     (trace (run env urls options schedule)) p a).
    { destruct Hshape as [-> | ->]; simpl in Hok; [done | by destruct Hok]. }
    destruct Hatt as (_ & Hmade & _ & Hk).
    split; [done |]. intros k Hkr. split; [by apply Hk |].
    specialize (Ht k). cbn zeta in Ht. destruct Ht as (_ & _ & -> & _ & _).
    rewrite Hmade, bool_decide_eq_true_2 by lia.
    assert (inFlight c k = false) as ->.
    { destruct Hshape as [-> | ->]; simpl; [| done].
      apply bool_decide_eq_false_2. lia. }
    simpl. destruct (env p k); simpl; lia.
Qed.

(** With batches of two, two attempts are in flight after A has answered
    its headers, and C, in the next batch, is not started. *)
Lemma parallelCalls_bounded_concurrency_witness :
  Z.of_nat (outstanding
              (chains (run flaky ["A"; "B"; "C"] (batchesOf 2) [0]%nat))) <= 2 /\
  chains (run flaky ["A"; "B"; "C"] (batchesOf 2) [0]%nat) =
    [ReadingBody 1; Fetching 1; NotStarted].
Proof.
  split; [| by vm_compute].
  apply (parallelCalls_bounded_concurrency flaky ["A"; "B"; "C"] (batchesOf 2) [0]%nat).
Defined.

(** ** C10: no URL *)

(** C10, amended. For the empty list and every configuration whose
    batchSize is not 0, [parallelCalls] resolves with the empty sequence
    at once, on every schedule, and fetches nothing. *)
Theorem parallelCalls_empty
    (env : Network) (options : option Options) (schedule : list nat) :
  batchSize (resolveOptions options) <> 0 ->
  main (run env [] options schedule) = Returned [] /\
  trace (run env [] options schedule) = [ELogResponses []] /\
  forall p, attemptsMade (trace (run env [] options schedule)) p = 0.
Proof.
  intros Hb.
  assert (Hinit : parallelCalls [] options =
            {| main := Returned []; iterations := 0; results := [];
               chains := []; trace := [ELogResponses []] |}).
  { unfold parallelCalls, mathCeilDiv.
    destruct (Z.eqb_spec (batchSize (resolveOptions options)) 0); [done |].
    simpl. by rewrite Z.div_0_l by done. }
  assert (Hrun : run env [] options schedule = parallelCalls [] options).
  { apply runFrom_idle. rewrite Hinit. by intros []. }
  rewrite Hrun, Hinit. done.
Qed.

(** No URL and the default options, on a schedule that names positions
    that do not exist. *)
Lemma parallelCalls_empty_witness :
  main (run allOk [] None [0; 1]%nat) = Returned [] /\
  trace (run allOk [] None [0; 1]%nat) = [ELogResponses []] /\
  forall p, attemptsMade (trace (run allOk [] None [0; 1]%nat)) p = 0.
Proof.
  apply (parallelCalls_empty allOk None [0; 1]%nat).
  vm_compute. discriminate.
Defined.

(** C10 as stated fails for batchSize = 0: [Math.ceil(0 / 0)] is NaN,
    [Array(NaN)] throws a RangeError at line 165, and the [catch] clause of
    line 176 rejects the call. *)
Lemma parallelCalls_empty_counterexample :
  mathCeilDiv 0 0 = None /\
  trace (parallelCalls [] (batchesOf 0)) = [ELogError "Invalid array length"] /\
  (forall schedule,
     main (run allOk [] (batchesOf 0) schedule) =
       Thrown (newError "Invalid array length")).
Proof.
  repeat split. intros schedule. by rewrite run_nonpositive.
Qed.
